(** * A verification development for the code-generation gateway

    The program is [src/api/index.ts]: an Express handler that forwards
    one prompt to a generative backend, rotating round-robin over a pool
    of API keys, retrying on quota and overload errors, and wrapping the
    raw answer into [{ code }].

    The embedding is shallow.  JavaScript strings are sequences of UTF-16
    code units, so a string is a [list N] here; the module level variable
    [currentKeyIndex] and the observable effects (clients created,
    messages sent, delays, log records) are threaded through a small
    state-and-exception monad; the backend is an oracle the theorems
    quantify over.  One request is run to completion: the interleaving of
    several requests at their [await] points is not modelled. *)

From Stdlib Require Import Ascii String DecimalString.
From Stdlib Require Import List NArith ZArith Arith Bool Lia Permutation.
Import ListNotations.
Local Open Scope string_scope.
Local Open Scope list_scope.

(* ================================================================== *)
(** ** JavaScript strings *)
(* ================================================================== *)

Module JsString.

(** A string is the list of its UTF-16 code units. *)
Definition jsstring := list N.

(** An ASCII literal of the source, as code units. *)
Definition units (s : string) : jsstring :=
  map N_of_ascii (list_ascii_of_string s).

Definition between (lo hi c : N) : bool := (lo <=? c)%N && (c <=? hi)%N.

(** [WhiteSpace] and [LineTerminator] of ECMAScript: what [\s] matches
    and what [String.prototype.trim] removes. *)
Definition is_ws (c : N) : bool :=
  between 9 13 c                 (* TAB LF VT FF CR *)
  || (c =? 32)%N                 (* SPACE *)
  || (c =? 160)%N                (* NO-BREAK SPACE *)
  || (c =? 5760)%N               (* OGHAM SPACE MARK *)
  || between 8192 8202 c         (* EN QUAD .. HAIR SPACE *)
  || (c =? 8232)%N || (c =? 8233)%N   (* LINE / PARAGRAPH SEPARATOR *)
  || (c =? 8239)%N || (c =? 8287)%N || (c =? 12288)%N
  || (c =? 65279)%N.             (* ZERO WIDTH NO-BREAK SPACE *)

(** [\w] without the [u] and [i] flags: [[A-Za-z0-9_]]. *)
Definition is_word (c : N) : bool :=
  between 48 57 c || between 65 90 c || between 97 122 c || (c =? 95)%N.

(** The backtick and the newline. *)
Definition tick : N := 96.
Definition newline : N := 10.
Definition isTick (c : N) : bool := (c =? tick)%N.

(** The triple-backtick marker. *)
Definition fence : jsstring := [tick; tick; tick].

Fixpoint dropWhile (p : N -> bool) (s : jsstring) : jsstring :=
  match s with
  | [] => []
  | c :: r => if p c then dropWhile p r else s
  end.

(** [String.prototype.trimStart], [trimEnd] and [trim]. *)
Definition trimStart (s : jsstring) : jsstring := dropWhile is_ws s.
Definition trimEnd (s : jsstring) : jsstring := rev (dropWhile is_ws (rev s)).
Definition trim (s : jsstring) : jsstring := trimEnd (trimStart s).

(** [s.startsWith(needle)]. *)
Fixpoint startsWith (needle s : jsstring) : bool :=
  match needle, s with
  | [], _ => true
  | _ :: _, [] => false
  | n :: ns, c :: cs => (c =? n)%N && startsWith ns cs
  end.

(** [s.includes(needle)]: is there a position where [needle] starts. *)
Fixpoint includes (needle s : jsstring) : bool :=
  startsWith needle s
  || match s with
     | [] => false
     | _ :: r => includes needle r
     end.

(** One code unit of [String.prototype.toLowerCase].  The ASCII capitals
    go to their small letters.  Two units outside ASCII lower-case into
    ASCII: KELVIN SIGN (U+212A) to [k] and LATIN CAPITAL LETTER I WITH DOT
    ABOVE (U+0130) to [i] followed by U+0307.  Every other unit outside
    ASCII lower-cases to units outside ASCII; the model leaves those as
    they are, which no search for an ASCII needle can tell apart. *)
Definition lowerUnit (c : N) : jsstring :=
  if between 65 90 c then [(c + 32)%N]
  else if (c =? 8490)%N then [107%N]
  else if (c =? 304)%N then [105%N; 775%N]
  else [c].

Definition toLowerCase (s : jsstring) : jsstring := flat_map lowerUnit s.

(** [s.replace(/```/g, '')]: scan from the left, drop every marker found,
    resume after it. *)
Fixpoint stripFences (s : jsstring) : jsstring :=
  match s with
  | [] => []
  | a :: r =>
      match r with
      | b :: c :: r' =>
          if isTick a && isTick b && isTick c
          then stripFences r'
          else a :: stripFences r
      | _ => a :: stripFences r
      end
  end.

(** [s.split(',')]: the pieces between the separators, at least one. *)
Fixpoint split (sep : N) (s : jsstring) : list jsstring :=
  match s with
  | [] => [[]]
  | c :: r =>
      if (c =? sep)%N then [] :: split sep r
      else match split sep r with
           | [] => [[c]]
           | p :: ps => (c :: p) :: ps
           end
  end.

(** Truthiness of a string: the empty string is the only falsy one. *)
Definition truthy (s : jsstring) : bool :=
  match s with [] => false | _ :: _ => true end.

(** The decimal digits of a number, as a template literal prints it. *)
Definition decimal (n : nat) : jsstring :=
  units (NilZero.string_of_uint (Nat.to_uint n)).

End JsString.

(* ================================================================== *)
(** ** The regular expression of [formatResponse] *)
(* ================================================================== *)

Module Regex.
Import JsString.

(** The fragment of the pattern language the source uses: a pattern is a
    sequence of terms. *)
Inductive term :=
| Char (c : N)                       (* a literal code unit *)
| StarGreedy (cls : N -> bool)       (* [cls]*   *)
| OptGreedy (c : N)                  (* c?       *)
| GroupStarLazy (cls : N -> bool).   (* ([cls]*?), the capture group *)

Definition pattern := list term.

(** The rest of a match is a continuation: from the input that is left
    to the capture of the whole match, or [None] to backtrack. *)
Definition cont := jsstring -> option jsstring.

(** A greedy star tries one more unit first and falls back to none. *)
Fixpoint starGreedy (cls : N -> bool) (k : cont) (s : jsstring)
  : option jsstring :=
  match s with
  | c :: r =>
      if cls c then
        match starGreedy cls k r with
        | Some v => Some v
        | None => k s
        end
      else k s
  | [] => k []
  end.

(** A lazy star tries the rest first and takes one more unit only when
    that fails; [acc] is what the group has taken so far, reversed. *)
Fixpoint starLazy (cls : N -> bool) (k : jsstring -> cont)
  (acc s : jsstring) : option jsstring :=
  match k (rev acc) s with
  | Some v => Some v
  | None =>
      match s with
      | c :: r => if cls c then starLazy cls k (c :: acc) r else None
      | [] => None
      end
  end.

(** The backtracking matcher anchored at the head of [s]; [cap] is the
    text of the capture group. *)
Fixpoint matchHere (re : pattern) (cap s : jsstring) {struct re}
  : option jsstring :=
  match re with
  | [] => Some cap
  | Char c :: k =>
      match s with
      | x :: r => if (x =? c)%N then matchHere k cap r else None
      | [] => None
      end
  | StarGreedy cls :: k => starGreedy cls (matchHere k cap) s
  | OptGreedy c :: k =>
      match s with
      | x :: r =>
          if (x =? c)%N then
            match matchHere k cap r with
            | Some v => Some v
            | None => matchHere k cap s
            end
          else matchHere k cap s
      | [] => matchHere k cap []
      end
  | GroupStarLazy cls :: k =>
      starLazy cls (fun cap' => matchHere k cap') [] s
  end.

(** [s.match(re)] for a pattern without the [g] flag: the first start
    position with a match; the result is [match[1]]. *)
Fixpoint regexMatch (re : pattern) (s : jsstring) : option jsstring :=
  match matchHere re [] s with
  | Some v => Some v
  | None =>
      match s with
      | _ :: r => regexMatch re r
      | [] => None
      end
  end.

(** [/```[\w]*\n?([\s\S]*?)```/] *)
Definition codeBlockRegex : pattern :=
  [ Char tick; Char tick; Char tick;
    StarGreedy is_word;
    OptGreedy newline;
    GroupStarLazy (fun _ => true);
    Char tick; Char tick; Char tick ].

(** Its tail: the capture group and the closing marker. *)
Definition groupAndClosing : pattern :=
  [GroupStarLazy (fun _ => true); Char tick; Char tick; Char tick].

End Regex.

(* ================================================================== *)
(** ** The response normalizer: [formatResponse] *)
(* ================================================================== *)

Module Normalizer.
Import JsString Regex.

Record CodeResponse := { code : jsstring }.

Definition formatResponse (rawText : jsstring) : CodeResponse :=
  let clean :=
    match regexMatch codeBlockRegex rawText with
    | Some ((_ :: _) as inner) => trim inner       (* match && match[1] *)
    | _ => trim (stripFences rawText)
    end in
  {| code := clean |}.

End Normalizer.

(* ================================================================== *)
(** ** The key pool, the retry loop and the endpoint *)
(* ================================================================== *)

Module Gateway.
Import JsString Normalizer.

(** [currentKeyIndex] is a JavaScript number.  It only ever holds a small
    natural number, or [NaN] once a remainder by an empty pool's length
    has been taken. *)
Inductive jsnum := Num (n : nat) | NaN.

(** [(i + 1) % len] *)
Definition succMod (i : jsnum) (len : nat) : jsnum :=
  match i with
  | Num n => if (len =? 0)%nat then NaN else Num ((n + 1) mod len)
  | NaN => NaN
  end.

(** [keys[i]]: [undefined] out of range and at [NaN]. *)
Definition keyAt (keys : list jsstring) (i : jsnum) : option jsstring :=
  match i with
  | Num n => nth_error keys n
  | NaN => None
  end.

(** A thrown value: an object whose [message] may be missing. *)
Record Err := { message : option jsstring }.

Definition newError (msg : jsstring) : Err := {| message := Some msg |}.

(** What one [sendMessage] comes back with. *)
Inductive outcome :=
| Success (text : jsstring)
| Failure (err : Err).

Inductive level := INFO | WARN | ERROR.

(** What a request does to the outside world, in order. *)
Inductive event :=
| Log (lvl : level) (type : string)
| NewClient (key : jsstring)          (* new GoogleGenerativeAI(key) *)
| StartChat (key : jsstring)          (* model.startChat(...) *)
| SendMessage (key query : jsstring)  (* chatSession.sendMessage(query) *)
| Sleep (ms : nat).                   (* setTimeout(r, ms) *)

Record state := {
  currentKeyIndex : jsnum;
  trace : list event
}.

(** A chat session is bound to the key of the client that made it. *)
Record Session := { sessionKey : jsstring }.

(** The JSON bodies the endpoint sends. [details] is left out of the
    document when it is [undefined]. *)
Inductive Body :=
| CodeBody (r : CodeResponse)
| ErrorBody (msg : jsstring) (details : option jsstring).

Record Response := { status : nat; body : Body }.

(** *** The monad: state and exceptions *)

Definition M (A : Type) : Type := state -> (A + Err) * state.

Definition ret {A} (a : A) : M A := fun st => (inl a, st).

Definition bind {A B} (c : M A) (k : A -> M B) : M B :=
  fun st =>
    match c st with
    | (inl a, st') => k a st'
    | (inr e, st') => (inr e, st')
    end.

Definition throw {A} (e : Err) : M A := fun st => (inr e, st).

Definition tryCatch {A} (c : M A) (h : Err -> M A) : M A :=
  fun st =>
    match c st with
    | (inl a, st') => (inl a, st')
    | (inr e, st') => h e st'
    end.

Definition emit (e : event) : M unit :=
  fun st => (inl tt, {| currentKeyIndex := currentKeyIndex st;
                        trace := trace st ++ [e] |}).

Definition readIndex : M jsnum := fun st => (inl (currentKeyIndex st), st).

Definition writeIndex (i : jsnum) : M unit :=
  fun st => (inl tt, {| currentKeyIndex := i; trace := trace st |}).

Declare Scope gateway_scope.
Delimit Scope gateway_scope with gw.
Notation "x <- c ;; k" := (bind c (fun x => k))
  (at level 61, c at next level, right associativity) : gateway_scope.
Notation "c ;; k" := (bind c (fun _ => k))
  (at level 61, right associativity) : gateway_scope.
Local Open Scope gateway_scope.

(** [err.message || ""] *)
Definition messageOr (e : Err) : jsstring :=
  match message e with
  | Some ((_ :: _) as m) => m
  | _ => []
  end.

(** [${x}] of a value that is a string or [undefined]. *)
Definition interpolate (m : option jsstring) : jsstring :=
  match m with
  | Some m => m
  | None => units "undefined"
  end.

(** [errorMsg.includes('429') || errorMsg.toLowerCase().includes('quota')] *)
Definition isQuotaError (errorMsg : jsstring) : bool :=
  includes (units "429") errorMsg
  || includes (units "quota") (toLowerCase errorMsg).

(** [errorMsg.includes('503') || errorMsg.includes('Overloaded')] *)
Definition isServiceOverloaded (errorMsg : jsstring) : bool :=
  includes (units "503") errorMsg
  || includes (units "Overloaded") errorMsg.

(** The three ways the [catch] block of the retry loop goes. *)
Inductive failureClass := QuotaExceeded | ServiceOverloaded | FatalFailure.

Definition classify (errorMsg : jsstring) : failureClass :=
  if isQuotaError errorMsg || isServiceOverloaded errorMsg then
    if isQuotaError errorMsg then QuotaExceeded else ServiceOverloaded
  else FatalFailure.

(** The [type] of the warning logged on a retry. *)
Definition retryLogType (errorMsg : jsstring) : string :=
  if isQuotaError errorMsg then "QUOTA_LIMIT" else "SERVICE_OVERLOADED".

(** [envKeys.split(',').map(k => k.trim()).filter(k => k)] *)
Definition parseKeys (envKeys : jsstring) : list jsstring :=
  filter truthy (map trim (split 44 envKeys)).

(** [process.env.GEMINI_API_KEYS || process.env.GEMINI_API_KEY || ""],
    each variable being unset or a string. *)
Definition envKeys (GEMINI_API_KEYS GEMINI_API_KEY : option jsstring)
  : jsstring :=
  match GEMINI_API_KEYS with
  | Some ((_ :: _) as v) => v
  | _ =>
      match GEMINI_API_KEY with
      | Some ((_ :: _) as v) => v
      | _ => []
      end
  end.

(** [(currentKeyIndex - 1 + apiKeys.length) % apiKeys.length], the index
    the retry branch logs as "the key we JUST used".  The subtraction is
    on numbers, not on naturals, and [%] takes the sign of the dividend. *)
Definition usedKeyIndex (keys : list jsstring) (i : jsnum) : jsnum :=
  match i with
  | Num c =>
      if (length keys =? 0)%nat then NaN
      else Num (Z.to_nat (Z.rem (Z.of_nat c - 1 + Z.of_nat (length keys))
                                (Z.of_nat (length keys))))
  | NaN => NaN
  end.

Section Server.

(** The pool, fixed when the process starts. *)
Variable apiKeys : list jsstring.

(** The backend: what the [try] block of the [attempt]-th round gets
    from [sendMessage], [result.response] and [response.text()] together,
    on a session of the given key, for the given prompt: the text, or the
    value thrown. *)
Variable backend : nat -> jsstring -> jsstring -> outcome.

Definition getModel : M jsstring :=
  index <- readIndex ;;
  writeIndex (succMod index (length apiKeys)) ;;
  match keyAt apiKeys index with
  | Some ((_ :: _) as key) => emit (NewClient key) ;; ret key
  | _ => throw (newError (units "No available API keys."))
  end.

Definition createChatSession : M Session :=
  model <- getModel ;;
  emit (StartChat model) ;;
  ret {| sessionKey := model |}.

Definition sendMessage (attempt : nat) (chatSession : Session)
  (query : jsstring) : M outcome :=
  emit (SendMessage (sessionKey chatSession) query) ;;
  ret (backend attempt (sessionKey chatSession) query).

(** How the [for] loop is left when nothing is thrown. *)
Inductive loopExit :=
| Returned (r : Response)
| Exhausted (lastError : option Err).

(** The [for] loop with [remaining = MAX_RETRIES - attempt] rounds to go. *)
Fixpoint retryLoop (query : jsstring) (remaining attempt : nat)
  (chatSession : Session) (lastError : option Err) : M loopExit :=
  match remaining with
  | O => ret (Exhausted lastError)
  | S remaining' =>
      result <- sendMessage attempt chatSession query ;;
      match result with
      | Success text =>
          emit (Log INFO "AI_RAW_RESPONSE") ;;
          let finalResponse := formatResponse text in
          emit (Log INFO "RESPONSE_SENT") ;;
          ret (Returned {| status := 200; body := CodeBody finalResponse |})
      | Failure err =>
          let errorMsg := messageOr err in
          if isQuotaError errorMsg || isServiceOverloaded errorMsg then
            emit (Log WARN (retryLogType errorMsg)) ;;
            (if isServiceOverloaded errorMsg then emit (Sleep 1000)
             else ret tt) ;;
            chatSession' <- createChatSession ;;
            retryLoop query remaining' (S attempt) chatSession' (Some err)
          else
            emit (Log ERROR "API_ATTEMPT_ERROR") ;;
            throw err
      end
  end.

Definition MAX_RETRIES : nat := length apiKeys * 2.

(** The message of the error thrown after the loop. *)
Definition exhaustedMessage (lastError : option Err) : jsstring :=
  units "Failed after " ++ decimal MAX_RETRIES
  ++ units " attempts. Last error: "
  ++ match lastError with
     | Some e => interpolate (message e)
     | None => units "Unknown"
     end.

(** [!query], for a parameter that is absent or a string. *)
Definition missing (query : option jsstring) : bool :=
  match query with
  | Some (_ :: _) => false
  | _ => true
  end.

(** The handler of [GET /]. *)
Definition handler (query : option jsstring) : M Response :=
  tryCatch
    (emit (Log INFO "REQUEST") ;;
     if missing query then
       emit (Log WARN "BAD_REQUEST") ;;
       ret {| status := 400;
              body := ErrorBody (units "Missing 'query' parameter.") None |}
     else if (length apiKeys =? 0)%nat then
       emit (Log ERROR "CONFIG_ERROR") ;;
       ret {| status := 500;
              body := ErrorBody (units "Server config error: No API keys.")
                                None |}
     else
       let q := match query with Some q => q | None => [] end in
       chatSession <- createChatSession ;;
       exit <- retryLoop q MAX_RETRIES 0 chatSession None ;;
       match exit with
       | Returned r => ret r
       | Exhausted lastError => throw (newError (exhaustedMessage lastError))
       end)
    (fun criticalError =>
       emit (Log ERROR "CRITICAL_SERVER_ERROR") ;;
       ret {| status := 500;
              body := ErrorBody (units "Internal Server Error")
                                (message criticalError) |}).

End Server.

(** The state of a process that has just started: [let currentKeyIndex = 0]. *)
Definition initial : state := {| currentKeyIndex := Num 0; trace := [] |}.

(** The keys of the messages sent, in order. *)
Definition sentKeys (t : list event) : list jsstring :=
  flat_map (fun e => match e with SendMessage k _ => [k] | _ => [] end) t.

(** The keys of the chat sessions started, in order. *)
Definition sessionKeys (t : list event) : list jsstring :=
  flat_map (fun e => match e with StartChat k => [k] | _ => [] end) t.

(** The keys handed out by [getModel], in order. *)
Definition clientKeys (t : list event) : list jsstring :=
  flat_map (fun e => match e with NewClient k => [k] | _ => [] end) t.

End Gateway.

Import JsString Regex Normalizer Gateway.
Local Open Scope gateway_scope.

(* ================================================================== *)
(** ** What the specification says, in its own words *)
(* ================================================================== *)

Module Spec.

(** [w] occurs in [s]. *)
Definition Infix (w s : jsstring) : Prop := exists a b, s = a ++ w ++ b.

(** The text before the first triple-backtick marker and the text after
    it, when there is one. *)
Fixpoint splitFence (s : jsstring) : option (jsstring * jsstring) :=
  match s with
  | [] => None
  | c :: r =>
      if startsWith fence s then Some ([], skipn 3 s)
      else match splitFence r with
           | Some (a, b) => Some (c :: a, b)
           | None => None
           end
  end.

(** The text up to the next marker. *)
Definition upToFence (s : jsstring) : option jsstring :=
  match splitFence s with
  | Some (interior, _) => Some interior
  | None => None
  end.

(** An optional language tag, then an optional newline. *)
Definition skipTag (s : jsstring) : jsstring := dropWhile is_word s.

Definition skipNewline (s : jsstring) : jsstring :=
  match s with
  | c :: r => if (c =? newline)%N then r else s
  | [] => []
  end.

(** The interior of the first fenced block: what lies between the first
    marker, its tag and newline, and the next marker. *)
Definition fencedInterior (s : jsstring) : option jsstring :=
  match splitFence s with
  | None => None
  | Some (_, rest) =>
      match splitFence (skipNewline (skipTag rest)) with
      | Some (interior, _) => Some interior
      | None => None
      end
  end.

(** [normalize] as section 4.3 words it: the trimmed interior when a
    fenced block is found, the stripped and trimmed text otherwise. *)
Definition normalize (rawText : jsstring) : CodeResponse :=
  {| code := match fencedInterior rawText with
             | Some interior => trim interior
             | None => trim (stripFences rawText)
             end |}.

(** A string with no whitespace at either end. *)
Definition noLeadingWs (s : jsstring) : Prop :=
  match s with
  | c :: _ => is_ws c = false
  | [] => True
  end.

Definition trimmed (s : jsstring) : Prop :=
  noLeadingWs s /\ noLeadingWs (rev s).

(** ASCII case folding, and an occurrence up to case. *)
Definition foldCase (c : N) : N :=
  if between 65 90 c then (c + 32)%N else c.

Definition InfixNoCase (w s : jsstring) : Prop :=
  exists v, Infix v s /\ map foldCase v = w.

(** A small ASCII letter that no unit outside ASCII lower-cases into. *)
Definition plainLetter (x : N) : bool :=
  between 97 122 x && negb (x =? 107)%N && negb (x =? 105)%N.

(** The pool read cyclically from position [c]. *)
Definition rotate (c : nat) (keys : list jsstring) : list jsstring :=
  skipn c keys ++ firstn c keys.

(** [n] calls of [getModel] in a row: what each gave, and the state after. *)
Fixpoint getModels (keys : list jsstring) (n : nat) (st : state)
  : list (jsstring + Err) * state :=
  match n with
  | O => ([], st)
  | S n' =>
      let (r, st') := getModel keys st in
      let (rs, st'') := getModels keys n' st' in
      (r :: rs, st'')
  end.

(** The key at position [j], counting round the pool. *)
Definition keyOf (keys : list jsstring) (j : nat) : jsstring :=
  nth (j mod length keys) keys [].

(** The cursor is an index into the pool. *)
Definition validIndex (keys : list jsstring) (st : state) : Prop :=
  exists c, currentKeyIndex st = Num c /\ c < length keys.

(** Every key of the pool is a non-empty string, as [filter(k => k)]
    leaves them. *)
Definition allTruthy (keys : list jsstring) : Prop :=
  Forall (fun k => truthy k = true) keys.

(** What one failed and retried attempt does: the message sent on the
    session of key [k], the warning, the pause on an overload, and the
    new session on key [k']. *)
Definition retryEvents (k query : jsstring) (e : Err) (k' : jsstring)
  : list event :=
  [SendMessage k query; Log WARN (retryLogType (messageOr e))]
  ++ (if isServiceOverloaded (messageOr e) then [Sleep 1000] else [])
  ++ [NewClient k'; StartChat k'].

(** The error the loop remembers after [k] retried attempts, the first of
    them numbered [att] and made on the key at position [p]. *)
Definition lastAfter (keys : list jsstring)
  (backend : nat -> jsstring -> jsstring -> outcome)
  (q : jsstring) (att p k : nat) (le le' : option Err) : Prop :=
  match k with
  | O => le' = le
  | S k' => exists e, backend (att + k') (keyOf keys (p + k')) q = Failure e
                      /\ le' = Some e
  end.

(** A computation that keeps the cursor an index into the pool. *)
Definition preserves (keys : list jsstring) {A} (c : M A) : Prop :=
  forall st, validIndex keys st -> validIndex keys (snd (c st)).

(** The body of the 500 response that carries a diagnostic. *)
Definition internalError (details : option jsstring) : Response :=
  {| status := 500;
     body := ErrorBody (units "Internal Server Error") details |}.

(** The milliseconds a request spends in [setTimeout]. *)
Definition pauseTotal (t : list event) : nat :=
  list_sum (flat_map (fun e => match e with Sleep ms => [ms] | _ => [] end) t).

(** Every message of a trace carries the prompt [q], on a key of the
    pool. *)
Definition carries (keys : list jsstring) (q : jsstring) (t : list event)
  : Prop :=
  Forall (fun e => match e with
                   | SendMessage k q' => q' = q /\ In k keys
                   | _ => True
                   end) t.

(** Attempt [i] of a request that found the cursor at [c] fails and is
    retried. *)
Definition retriedAt (keys : list jsstring)
  (backend : nat -> jsstring -> jsstring -> outcome)
  (q : jsstring) (c i : nat) : Prop :=
  exists e, backend i (keyOf keys (c + i)) q = Failure e
            /\ classify (messageOr e) <> FatalFailure.

(** A response as the endpoint promises it: 200 with a [code] that holds
    no marker and no whitespace at its ends, or 400 or 500 with an error
    envelope. *)
Definition wellFormed (r : Response) : Prop :=
  match body r with
  | CodeBody cr =>
      status r = 200
      /\ includes fence (code cr) = false
      /\ trimmed (code cr)
  | ErrorBody _ _ => status r = 400 \/ status r = 500
  end.

(** [a] is [b] with some units left out. *)
Inductive Subseq : jsstring -> jsstring -> Prop :=
| Subseq_nil : Subseq [] []
| Subseq_skip (c : N) (a b : jsstring) : Subseq a b -> Subseq a (c :: b)
| Subseq_keep (c : N) (a b : jsstring) : Subseq a b -> Subseq (c :: a) (c :: b).

(** [pieces.join(sep)] *)
Fixpoint join (sep : N) (pieces : list jsstring) : jsstring :=
  match pieces with
  | [] => []
  | [p] => p
  | p :: ps => p ++ sep :: join sep ps
  end.

(** The pause that follows an attempt: one second when the message of
    the failure holds "503" or "Overloaded". *)
Definition pauseOf (o : outcome) : nat :=
  match o with
  | Failure e => if isServiceOverloaded (messageOr e) then 1000 else 0
  | Success _ => 0
  end.

(** The 200 response for a raw text. *)
Definition okResponse (text : jsstring) : Response :=
  {| status := 200; body := CodeBody (formatResponse text) |}.

(** An environment value that holds nothing but commas and whitespace. *)
Definition blank (s : jsstring) : bool :=
  forallb (fun c => is_ws c || (c =? 44)%N) s.

(** Requests served one after the other by one process. *)
Fixpoint serve (keys : list jsstring)
  (backend : nat -> jsstring -> jsstring -> outcome)
  (queries : list (option jsstring)) (st : state)
  : list (Response + Err) * state :=
  match queries with
  | [] => ([], st)
  | query :: rest =>
      let (r, st') := handler keys backend query st in
      let (rs, st'') := serve keys backend rest st' in
      (r :: rs, st'')
  end.

(** A backend that answers every message with the same text. *)
Definition alwaysAnswers (text : jsstring)
  : nat -> jsstring -> jsstring -> outcome :=
  fun _ _ _ => Success text.

(** A backend that is out of quota and overloaded at once on the first
    message, and answers the second. *)
Definition busyThenAnswers : nat -> jsstring -> jsstring -> outcome :=
  fun attempt _ _ =>
    if (attempt =? 0)%nat
    then Failure (newError (units "429 quota; 503 Overloaded"))
    else Success (units "ok").

(** A backend that throws a value without a message. *)
Definition throwsBare : nat -> jsstring -> jsstring -> outcome :=
  fun _ _ _ => Failure {| message := None |}.

(** A fenced block with nothing inside, then text. *)
Definition emptyBlockThenText : jsstring :=
  fence ++ [newline] ++ fence ++ units "x".

(** A pool of two keys and a backend that is out of quota on each. *)
Definition keyOne : jsstring := units "key-1".
Definition keyTwo : jsstring := units "key-2".
Definition twoKeys : list jsstring := [keyOne; keyTwo].

Definition quotaAlways : nat -> jsstring -> jsstring -> outcome :=
  fun _ _ _ => Failure (newError (units "429 Too Many Requests")).

(** A backend that answers the third message, with a fenced block. *)
Definition jsBlock : jsstring :=
  units "```js" ++ [newline] ++ units "console.log(1)" ++ [newline]
  ++ units "```".

Definition thirdTimeLucky : nat -> jsstring -> jsstring -> outcome :=
  fun attempt _ _ =>
    if (attempt <? 2)%nat
    then Failure (newError (units "503 Service Unavailable"))
    else Success jsBlock.

(** A backend that rejects the first message outright. *)
Definition fatalAtOnce : nat -> jsstring -> jsstring -> outcome :=
  fun _ _ _ => Failure (newError (units "API key not valid")).

End Spec.

Import Spec.

(* ================================================================== *)
(** ** Strings: occurrences, trimming, stripping *)
(* ================================================================== *)

Section StringFacts.

Lemma startsWith_spec (n s : jsstring) :
  startsWith n s = true <-> exists r, s = n ++ r.
Proof.
  revert s; induction n as [|x n IH]; intros s; simpl.
  - split; [intros _; now exists s | reflexivity].
  - destruct s as [|c s].
    + split; [discriminate | intros [r Hr]; discriminate].
    + rewrite andb_true_iff, N.eqb_eq, IH. split.
      * intros [-> [r ->]]. now exists r.
      * intros [r Hr]. injection Hr as -> ->. split; [reflexivity | now exists r].
Qed.

Lemma includes_spec (n s : jsstring) : includes n s = true <-> Infix n s.
Proof.
  induction s as [|c s IH]; simpl.
  - rewrite orb_false_r, startsWith_spec. split.
    + intros [r Hr]. now exists [], r.
    + intros [a [b Hab]]. destruct a; [now exists b | discriminate].
  - rewrite orb_true_iff, startsWith_spec, IH. split.
    + intros [[r Hr] | [a [b Hab]]].
      * now exists [], r.
      * exists (c :: a), b. now rewrite Hab.
    + intros [a [b Hab]]. destruct a as [|x a].
      * left. now exists b.
      * right. injection Hab as _ ->. now exists a, b.
Qed.

Lemma Infix_trans (u v w : jsstring) : Infix u v -> Infix v w -> Infix u w.
Proof.
  intros [a [b ->]] [a' [b' ->]].
  exists (a' ++ a), (b ++ b'). now rewrite !app_assoc.
Qed.

Lemma Infix_suffix (p s : jsstring) : Infix s (p ++ s).
Proof. exists p, []. now rewrite app_nil_r. Qed.

Lemma includes_mono (n u v : jsstring) :
  Infix u v -> includes n v = false -> includes n u = false.
Proof.
  intros Huv Hv. destruct (includes n u) eqn:E; [|reflexivity].
  apply includes_spec in E. rewrite <- Hv. symmetry.
  apply includes_spec. eapply Infix_trans; eassumption.
Qed.

Lemma dropWhile_split (p : N -> bool) (s : jsstring) :
  exists a, s = a ++ dropWhile p s.
Proof.
  induction s as [|c s [a IH]]; simpl.
  - now exists [].
  - destruct (p c); [exists (c :: a); simpl; now f_equal | now exists []].
Qed.

Lemma dropWhile_head (p : N -> bool) (s : jsstring) :
  match dropWhile p s with c :: _ => p c = false | [] => True end.
Proof.
  induction s as [|c s IH]; simpl; [exact I|].
  destruct (p c) eqn:E; [exact IH | exact E].
Qed.

Lemma dropWhile_id (p : N -> bool) (s : jsstring) :
  match s with c :: _ => p c = false | [] => True end -> dropWhile p s = s.
Proof. destruct s as [|c s]; simpl; [reflexivity | now intros ->]. Qed.

Lemma dropWhile_snoc (p : N -> bool) (s : jsstring) (c : N) :
  p c = false -> dropWhile p (s ++ [c]) = dropWhile p s ++ [c].
Proof.
  intros Hc. induction s as [|x s IH]; simpl.
  - now rewrite Hc.
  - destruct (p x); [exact IH | reflexivity].
Qed.

Lemma trim_Infix (s : jsstring) : Infix (trim s) s.
Proof.
  unfold trim, trimEnd, trimStart.
  destruct (dropWhile_split is_ws s) as [a Ha].
  destruct (dropWhile_split is_ws (rev (dropWhile is_ws s))) as [b Hb].
  exists a, (rev b). rewrite <- rev_app_distr, <- Hb, rev_involutive. exact Ha.
Qed.

Lemma trim_trimmed (s : jsstring) : trimmed (trim s).
Proof.
  unfold trimmed, trim, trimEnd, trimStart. split.
  - pose proof (dropWhile_head is_ws s) as H.
    destruct (dropWhile is_ws s) as [|c t]; simpl; [exact I|].
    rewrite dropWhile_snoc, rev_app_distr by exact H. exact H.
  - rewrite rev_involutive. apply dropWhile_head.
Qed.

Lemma trim_fixed (s : jsstring) : trimmed s -> trim s = s.
Proof.
  intros [Hl Hr]. unfold trim, trimEnd, trimStart.
  rewrite (dropWhile_id is_ws s Hl), (dropWhile_id is_ws (rev s) Hr).
  apply rev_involutive.
Qed.

Lemma trim_idempotent (s : jsstring) : trim (trim s) = trim s.
Proof. apply trim_fixed, trim_trimmed. Qed.

(** Induction along the scan of [replace(/```/g, '')]. *)
Lemma fence_scan_ind (P : jsstring -> Prop) :
  P [] ->
  (forall r, P r -> P (tick :: tick :: tick :: r)) ->
  (forall a r, startsWith fence (a :: r) = false -> P r -> P (a :: r)) ->
  forall s, P s.
Proof.
  intros Hnil Hfence Hstep s.
  remember (length s) as n eqn:Hn.
  revert s Hn. induction n as [n IH] using lt_wf_ind. intros s Hn.
  destruct s as [|a r]; [exact Hnil|].
  destruct (startsWith fence (a :: r)) eqn:E.
  - apply startsWith_spec in E. destruct E as [t Ht]. simpl in Ht.
    rewrite Ht. apply Hfence.
    apply (IH (length t)); [|reflexivity].
    subst n. rewrite Ht. simpl. lia.
  - apply Hstep; [exact E|].
    apply (IH (length r)); [|reflexivity]. subst n. simpl. lia.
Qed.

Lemma stripFences_fence (r : jsstring) :
  stripFences (tick :: tick :: tick :: r) = stripFences r.
Proof. reflexivity. Qed.

Lemma stripFences_step (a : N) (r : jsstring) :
  startsWith fence (a :: r) = false ->
  stripFences (a :: r) = a :: stripFences r.
Proof.
  intros H. destruct r as [|b [|c r]]; try reflexivity.
  cbn [startsWith fence] in H. rewrite andb_true_r in H.
  cbn [stripFences]. unfold isTick.
  rewrite <- andb_assoc, H. reflexivity.
Qed.

End StringFacts.

(* ================================================================== *)
(** ** Stripping leaves no marker *)
(* ================================================================== *)

Section Stripping.

(** The scan drops whole markers off the head of a run of backticks, so
    what it leaves starts with no more backticks than the input did. *)
Lemma stripFences_invariant (s : jsstring) :
  includes fence (stripFences s) = false
  /\ (startsWith [tick] (stripFences s) = true -> startsWith [tick] s = true)
  /\ (startsWith [tick; tick] (stripFences s) = true ->
      startsWith [tick; tick] s = true).
Proof.
  induction s as [| r [IH0 [IH1 IH2]] | a r Hhead [IH0 [IH1 IH2]]]
    using fence_scan_ind.
  - repeat split; intros H; exact H.
  - rewrite stripFences_fence. repeat split; auto.
  - rewrite (stripFences_step _ _ Hhead).
    assert (Htwo : startsWith [tick; tick] (a :: stripFences r) = true ->
                   startsWith [tick; tick] (a :: r) = true).
    { cbn [startsWith]. rewrite !andb_true_iff. intros [Ha Hr].
      split; [exact Ha|]. apply IH1. exact Hr. }
    repeat split.
    + cbn [includes]. rewrite IH0, orb_false_r.
      destruct (startsWith fence (a :: stripFences r)) eqn:E; [|reflexivity].
      rewrite <- Hhead. symmetry.
      change fence with [tick; tick; tick] in *.
      cbn [startsWith] in E |- *. rewrite !andb_true_iff in E |- *.
      destruct E as [Ha Hr]. split; [exact Ha|]. apply IH2. exact Hr.
    + cbn [startsWith]. intros H; exact H.
    + exact Htwo.
Qed.

Lemma stripFences_clean (s : jsstring) :
  includes fence (stripFences s) = false.
Proof. apply stripFences_invariant. Qed.

Lemma stripFences_id (s : jsstring) :
  includes fence s = false -> stripFences s = s.
Proof.
  induction s as [| r IH | a r Hhead IH] using fence_scan_ind; intros H.
  - reflexivity.
  - discriminate H.
  - rewrite (stripFences_step _ _ Hhead). f_equal. apply IH.
    cbn [includes] in H. apply orb_false_iff in H. apply H.
Qed.

End Stripping.

(* ================================================================== *)
(** ** What the regular expression finds *)
(* ================================================================== *)

Section RegexFacts.

Lemma splitFence_None (s : jsstring) :
  splitFence s = None <-> includes fence s = false.
Proof.
  induction s as [|c r IH]; [simpl; tauto|].
  cbn [splitFence includes].
  destruct (startsWith fence (c :: r)); [split; discriminate|].
  rewrite orb_false_l, <- IH.
  destruct (splitFence r) as [[a b]|]; split; congruence.
Qed.

Lemma splitFence_Some (s a b : jsstring) :
  splitFence s = Some (a, b) -> s = a ++ fence ++ b.
Proof.
  revert a b. induction s as [|c r IH]; intros a b; [discriminate|].
  cbn [splitFence]. destruct (startsWith fence (c :: r)) eqn:E.
  - apply startsWith_spec in E. destruct E as [t Ht].
    unfold fence in Ht. simpl in Ht. injection Ht as -> ->.
    intros H. injection H as <- <-. reflexivity.
  - destruct (splitFence r) as [[a' b']|]; [|discriminate].
    intros H. injection H as <- <-. simpl. f_equal. now apply IH.
Qed.

Lemma upToFence_None (s : jsstring) :
  upToFence s = None <-> includes fence s = false.
Proof.
  rewrite <- splitFence_None. unfold upToFence.
  destruct (splitFence s) as [[a b]|]; split; congruence.
Qed.

Lemma includes_fence_skip (c : N) (r : jsstring) :
  isTick c = false -> includes fence (c :: r) = includes fence r.
Proof.
  intros Hc. cbn [includes]. unfold fence at 1. cbn [startsWith].
  unfold isTick in Hc. rewrite Hc. reflexivity.
Qed.

Lemma upToFence_skip (c : N) (r : jsstring) :
  isTick c = false -> upToFence r = None -> upToFence (c :: r) = None.
Proof.
  intros Hc. rewrite !upToFence_None, includes_fence_skip by exact Hc. tauto.
Qed.

Lemma is_word_not_tick (c : N) : is_word c = true -> isTick c = false.
Proof.
  unfold is_word, isTick, between, tick. intros H.
  destruct (N.eqb_spec c 96) as [->|]; [discriminate H | reflexivity].
Qed.

Lemma is_word_not_newline (c : N) : is_word c = true -> (c =? newline)%N = false.
Proof.
  unfold is_word, between, newline. intros H.
  destruct (N.eqb_spec c 10) as [->|]; [discriminate H | reflexivity].
Qed.

Lemma includes_fence_skipTag (s : jsstring) :
  includes fence (skipTag s) = includes fence s.
Proof.
  unfold skipTag. induction s as [|c r IH]; [reflexivity|].
  cbn [dropWhile]. destruct (is_word c) eqn:E; [|reflexivity].
  rewrite IH. symmetry. apply includes_fence_skip, is_word_not_tick, E.
Qed.

Lemma includes_fence_skipNewline (s : jsstring) :
  includes fence (skipNewline s) = includes fence s.
Proof.
  destruct s as [|c r]; [reflexivity|]. cbn [skipNewline].
  destruct (N.eqb_spec c newline) as [->|]; [|reflexivity].
  symmetry. now apply includes_fence_skip.
Qed.

(** The equations of the matcher, one per term. *)
Lemma matchHere_char (c : N) (k : pattern) (cap s : jsstring) :
  matchHere (Char c :: k) cap s
  = match s with
    | x :: r => if (x =? c)%N then matchHere k cap r else None
    | [] => None
    end.
Proof. reflexivity. Qed.

Lemma matchHere_star (cls : N -> bool) (k : pattern) (cap s : jsstring) :
  matchHere (StarGreedy cls :: k) cap s = starGreedy cls (matchHere k cap) s.
Proof. reflexivity. Qed.

Lemma matchHere_opt (c : N) (k : pattern) (cap s : jsstring) :
  matchHere (OptGreedy c :: k) cap s
  = match s with
    | x :: r =>
        if (x =? c)%N then
          match matchHere k cap r with
          | Some v => Some v
          | None => matchHere k cap s
          end
        else matchHere k cap s
    | [] => matchHere k cap []
    end.
Proof. reflexivity. Qed.

(** The closing marker. *)
Lemma matchHere_closing (cap s : jsstring) :
  matchHere [Char tick; Char tick; Char tick] cap s
  = if startsWith fence s then Some cap else None.
Proof.
  unfold fence. cbn [matchHere startsWith].
  destruct s as [|a [|b [|c r]]]; cbn [startsWith];
    repeat match goal with
           | |- context [(?x =? tick)%N] => destruct (x =? tick)%N; cbn [andb]
           end; reflexivity.
Qed.

(** The lazy group followed by the closing marker stops at the first
    marker it meets. *)
Lemma starLazy_closing (acc s : jsstring) :
  starLazy (fun _ => true)
           (fun cap' => matchHere [Char tick; Char tick; Char tick] cap')
           acc s
  = match splitFence s with
    | Some (a, _) => Some (rev acc ++ a)
    | None => None
    end.
Proof.
  revert acc. induction s as [|c r IH]; intros acc.
  - reflexivity.
  - cbn [starLazy splitFence]. rewrite matchHere_closing.
    destruct (startsWith fence (c :: r)).
    + now rewrite app_nil_r.
    + rewrite IH. destruct (splitFence r) as [[a b]|]; [|reflexivity].
      cbn [rev]. now rewrite <- app_assoc.
Qed.

Lemma matchHere_group (cap s : jsstring) :
  matchHere groupAndClosing cap s = upToFence s.
Proof.
  unfold groupAndClosing. cbn [matchHere].
  change (starLazy (fun _ => true)
            (fun cap' => matchHere [Char tick; Char tick; Char tick] cap') [] s
          = upToFence s).
  rewrite starLazy_closing. unfold upToFence.
  destruct (splitFence s) as [[a b]|]; reflexivity.
Qed.

(** Giving the newline back never helps: it is no backtick. *)
Lemma matchHere_newline (cap s : jsstring) :
  matchHere (OptGreedy newline :: groupAndClosing) cap s
  = upToFence (skipNewline s).
Proof.
  rewrite matchHere_opt.
  destruct s as [|x r]; rewrite !matchHere_group; [reflexivity|].
  cbn [skipNewline]. destruct (N.eqb_spec x newline) as [->|]; [|reflexivity].
  destruct (upToFence r) eqn:E; [reflexivity|].
  now apply upToFence_skip.
Qed.

(** Nor does giving back units of the tag. *)
Lemma starGreedy_tag (cap s : jsstring) :
  starGreedy is_word (matchHere (OptGreedy newline :: groupAndClosing) cap) s
  = upToFence (skipNewline (skipTag s)).
Proof.
  induction s as [|x r IH].
  - cbn [starGreedy]. now rewrite matchHere_newline.
  - cbn [starGreedy]. unfold skipTag. cbn [dropWhile]. fold (skipTag r).
    destruct (is_word x) eqn:E; [|now rewrite matchHere_newline].
    rewrite IH.
    destruct (upToFence (skipNewline (skipTag r))) eqn:U; [reflexivity|].
    rewrite matchHere_newline. cbn [skipNewline].
    rewrite (is_word_not_newline _ E).
    apply upToFence_skip; [now apply is_word_not_tick|].
    apply upToFence_None. apply upToFence_None in U.
    now rewrite includes_fence_skipNewline, includes_fence_skipTag in U.
Qed.

Lemma matchHere_codeBlock (s : jsstring) :
  matchHere codeBlockRegex [] s
  = if startsWith fence s
    then upToFence (skipNewline (skipTag (skipn 3 s)))
    else None.
Proof.
  unfold codeBlockRegex, fence. fold groupAndClosing.
  rewrite !matchHere_char.
  destruct s as [|a [|b [|c r]]]; cbn [startsWith skipn];
    rewrite ?matchHere_char;
    repeat match goal with
           | |- context [(?x =? tick)%N] => destruct (x =? tick)%N; cbn [andb]
           end; try reflexivity.
  rewrite matchHere_star. apply starGreedy_tag.
Qed.

Lemma fencedInterior_skip (c : N) (r : jsstring) :
  startsWith fence (c :: r) = false ->
  fencedInterior (c :: r) = fencedInterior r.
Proof.
  intros H. unfold fencedInterior. cbn [splitFence]. rewrite H.
  destruct (splitFence r) as [[a b]|]; reflexivity.
Qed.

Lemma fencedInterior_open (r : jsstring) :
  fencedInterior (tick :: tick :: tick :: r)
  = upToFence (skipNewline (skipTag r)).
Proof. reflexivity. Qed.

(** When the first marker has no closing marker, a later start finds
    none either. *)
Lemma fencedInterior_unclosed (r : jsstring) :
  includes fence r = false -> fencedInterior (tick :: tick :: r) = None.
Proof.
  intros Hr. unfold fencedInterior.
  destruct (splitFence (tick :: tick :: r)) as [[a b]|] eqn:E; [|reflexivity].
  apply splitFence_Some in E.
  assert (Hb : includes fence b = false).
  { apply includes_mono with (v := r); [|exact Hr].
    unfold fence in E. destruct a as [|x [|y a]]; simpl in E.
    - injection E as ->. apply (Infix_suffix [tick]).
    - injection E as _ ->. apply (Infix_suffix [tick; tick]).
    - injection E as _ _ ->.
      change (Infix b (a ++ [tick; tick; tick] ++ b)).
      rewrite app_assoc. apply Infix_suffix. }
  rewrite <- includes_fence_skipTag, <- includes_fence_skipNewline in Hb.
  apply splitFence_None in Hb. now rewrite Hb.
Qed.

(** The backtracking matcher finds exactly the interior of the first
    fenced block. *)
Lemma regexMatch_codeBlock (s : jsstring) :
  regexMatch codeBlockRegex s = fencedInterior s.
Proof.
  induction s as [|c r IH].
  - reflexivity.
  - cbn [regexMatch]. rewrite matchHere_codeBlock, IH.
    destruct (startsWith fence (c :: r)) eqn:E.
    + apply startsWith_spec in E. destruct E as [t Ht].
      unfold fence in Ht. simpl in Ht. injection Ht as -> ->.
      cbn [skipn]. rewrite fencedInterior_open.
      destruct (upToFence (skipNewline (skipTag t))) eqn:U; [reflexivity|].
      apply fencedInterior_unclosed.
      apply upToFence_None in U.
      now rewrite includes_fence_skipNewline, includes_fence_skipTag in U.
    + symmetry. now apply fencedInterior_skip.
Qed.

End RegexFacts.

(* ================================================================== *)
(** ** The normalizer *)
(* ================================================================== *)

Section NormalizerFacts.

Lemma splitFence_first (s a b : jsstring) :
  splitFence s = Some (a, b) -> includes fence a = false.
Proof.
  revert a b. induction s as [|c r IH]; intros a b; [discriminate|].
  cbn [splitFence]. destruct (startsWith fence (c :: r)) eqn:E.
  - intros H. injection H as <- _. reflexivity.
  - destruct (splitFence r) as [[a' b']|] eqn:S; [|discriminate].
    intros H. injection H as <- <-.
    cbn [includes]. rewrite (IH _ _ eq_refl), orb_false_r.
    destruct (startsWith fence (c :: a')) eqn:F; [|reflexivity].
    rewrite <- E. symmetry.
    apply startsWith_spec in F. destruct F as [t Ht].
    apply startsWith_spec. apply splitFence_Some in S.
    exists (t ++ fence ++ b').
    injection Ht as -> ->. rewrite S. reflexivity.
Qed.

Lemma fencedInterior_clean (s i : jsstring) :
  fencedInterior s = Some i -> includes fence i = false.
Proof.
  unfold fencedInterior.
  destruct (splitFence s) as [[a rest]|]; [|discriminate].
  destruct (splitFence (skipNewline (skipTag rest))) as [[x y]|] eqn:E;
    [|discriminate].
  intros H. injection H as <-. eapply splitFence_first, E.
Qed.

(** A fenced block is there to be found: the text reads
    marker, tag, optional newline, interior, marker; no marker comes
    before the opening one and none inside the interior. *)
Lemma fencedInterior_block (s i : jsstring) :
  fencedInterior s = Some i ->
  exists pre tag nl post,
    s = pre ++ fence ++ tag ++ nl ++ i ++ fence ++ post
    /\ includes fence pre = false
    /\ forallb is_word tag = true
    /\ (nl = [] \/ nl = [newline])
    /\ includes fence i = false.
Proof.
  unfold fencedInterior.
  destruct (splitFence s) as [[pre rest]|] eqn:E1; [|discriminate].
  destruct (splitFence (skipNewline (skipTag rest))) as [[x post]|] eqn:E2;
    [|discriminate].
  intros H. injection H as ->.
  pose proof (splitFence_first _ _ _ E1) as F1.
  pose proof (splitFence_first _ _ _ E2) as F2.
  apply splitFence_Some in E1. apply splitFence_Some in E2.
  assert (Htag : exists tag, rest = tag ++ skipTag rest
                             /\ forallb is_word tag = true).
  { unfold skipTag. clear. induction rest as [|c r [tag [H1 H2]]].
    - now exists [].
    - cbn [dropWhile]. destruct (is_word c) eqn:W.
      + exists (c :: tag). split; [simpl; now f_equal|].
        simpl. now rewrite W.
      + now exists []. }
  destruct Htag as [tag [Hrest Htag]].
  assert (Hnl : exists nl, skipTag rest = nl ++ skipNewline (skipTag rest)
                           /\ (nl = [] \/ nl = [newline])).
  { destruct (skipTag rest) as [|c r]; [exists []; auto|].
    cbn [skipNewline]. destruct (N.eqb_spec c newline) as [->|].
    - exists [newline]. auto.
    - exists []. auto. }
  destruct Hnl as [nl [Hskip Hnl]].
  exists pre, tag, nl, post. repeat split; try assumption.
  rewrite E1. do 2 f_equal. rewrite Hrest at 1. f_equal.
  rewrite Hskip at 1. f_equal. exact E2.
Qed.

(** And a text with two markers one after the other has a fenced block. *)
Lemma fencedInterior_complete (pre mid post : jsstring) :
  fencedInterior (pre ++ fence ++ mid ++ fence ++ post) <> None.
Proof.
  assert (Hclosed : forall t, Infix fence t ->
            upToFence (skipNewline (skipTag t)) <> None).
  { intros t Ht U. apply upToFence_None in U.
    rewrite includes_fence_skipNewline, includes_fence_skipTag in U.
    apply includes_spec in Ht. congruence. }
  induction pre as [|c pre IH].
  - change (fencedInterior (tick :: tick :: tick :: mid ++ fence ++ post)
            <> None).
    rewrite fencedInterior_open. apply Hclosed. now exists mid, post.
  - cbn [app].
    destruct (startsWith fence (c :: pre ++ fence ++ mid ++ fence ++ post))
      eqn:E.
    + apply startsWith_spec in E. destruct E as [t Ht].
      assert (Ht' : t = skipn 3 (((c :: pre) ++ fence ++ mid) ++ fence ++ post)).
      { rewrite <- !app_assoc. cbn [app] in Ht |- *. now rewrite Ht. }
      rewrite skipn_app in Ht'.
      replace (3 - length ((c :: pre) ++ fence ++ mid)) with 0 in Ht'
        by (rewrite !length_app; unfold fence; cbn [length]; lia).
      rewrite Ht.
      change (fencedInterior (tick :: tick :: tick :: t) <> None).
      rewrite fencedInterior_open. apply Hclosed.
      rewrite Ht'. now eexists _, post.
    + rewrite fencedInterior_skip by exact E. exact IH.
Qed.

(** What the code computes, with the regular expression resolved. *)
Lemma formatResponse_unfold (rawText : jsstring) :
  formatResponse rawText
  = {| code := match fencedInterior rawText with
               | Some ((_ :: _) as interior) => trim interior
               | _ => trim (stripFences rawText)
               end |}.
Proof. unfold formatResponse. now rewrite regexMatch_codeBlock. Qed.

Lemma formatResponse_nofence (x : jsstring) :
  includes fence x = false -> formatResponse x = {| code := trim x |}.
Proof.
  intros H. rewrite formatResponse_unfold.
  unfold fencedInterior. apply splitFence_None in H as S. rewrite S.
  now rewrite stripFences_id.
Qed.

Lemma formatResponse_clean (s : jsstring) :
  includes fence (code (formatResponse s)) = false.
Proof.
  rewrite formatResponse_unfold. cbn [code].
  destruct (fencedInterior s) as [[|c i]|] eqn:E.
  - eapply includes_mono; [apply trim_Infix | apply stripFences_clean].
  - eapply includes_mono; [apply trim_Infix | eapply fencedInterior_clean, E].
  - eapply includes_mono; [apply trim_Infix | apply stripFences_clean].
Qed.

Lemma formatResponse_trimmed (s : jsstring) :
  trimmed (code (formatResponse s)).
Proof.
  rewrite formatResponse_unfold. cbn [code].
  destruct (fencedInterior s) as [[|c i]|]; apply trim_trimmed.
Qed.

(** The output is a fixed point, whatever the input. *)
Lemma formatResponse_fixed (s : jsstring) :
  formatResponse (code (formatResponse s)) = formatResponse s.
Proof.
  rewrite (formatResponse_nofence _ (formatResponse_clean s)).
  rewrite (trim_fixed _ (formatResponse_trimmed s)).
  now destruct (formatResponse s).
Qed.

(** However the one block of that text is cut into tag, newline and
    interior, the interior trims to nothing. *)
Lemma emptyBlock_any_reading (pre tag nl interior post : jsstring) :
  emptyBlockThenText = pre ++ fence ++ tag ++ nl ++ interior ++ fence ++ post ->
  trim interior = [].
Proof.
  intros H.
  assert (L : length pre + length tag + length nl + length interior
              + length post = 2).
  { apply (f_equal (@length N)) in H. rewrite !length_app in H.
    change (length emptyBlockThenText) with 8 in H.
    change (length fence) with 3 in H. lia. }
  unfold emptyBlockThenText, fence in H.
  destruct pre as [|p0 [|p1 [|p2 pre]]]; cbn [length] in L; try lia;
    destruct tag as [|t0 [|t1 [|t2 tag]]]; cbn [length] in L; try lia;
    destruct nl as [|n0 [|n1 [|n2 nl]]]; cbn [length] in L; try lia;
    destruct interior as [|i0 [|i1 [|i2 interior]]]; cbn [length] in L;
    try lia;
    destruct post as [|q0 [|q1 [|q2 post]]]; cbn [length] in L; try lia;
    cbn in H; try discriminate H;
    injection H; intros; subst; reflexivity.
Qed.

(** C2, as stated, fails: the text holds a fenced block whose interior is
    empty, section 4.3 asks for the trimmed interior, the empty string,
    and the code answers with the stripped text. *)
Lemma formatResponse_departs_from_normalize :
  fencedInterior emptyBlockThenText = Some []
  /\ normalize emptyBlockThenText = {| code := [] |}
  /\ formatResponse emptyBlockThenText = {| code := units "x" |}
  /\ formatResponse emptyBlockThenText <> normalize emptyBlockThenText
  /\ (forall pre tag nl interior post,
        emptyBlockThenText
        = pre ++ fence ++ tag ++ nl ++ interior ++ fence ++ post ->
        trim interior = []).
Proof.
  split; [reflexivity|]. split; [reflexivity|]. split; [reflexivity|].
  split; [discriminate|].
  apply emptyBlock_any_reading.
Qed.

(** C2, amended: [formatResponse] is total, and its [code] is the trimmed
    interior of the first fenced block when that interior is not empty;
    when there is no fenced block, or the interior of the first one is
    empty, it is the text with every marker removed, trimmed. *)
Theorem formatResponse_spec (rawText : jsstring) :
  exists clean,
    formatResponse rawText = {| code := clean |}
    /\ clean = match fencedInterior rawText with
               | Some [] => trim (stripFences rawText)
               | Some interior => trim interior
               | None => trim (stripFences rawText)
               end.
Proof.
  rewrite formatResponse_unfold. eexists. split; [reflexivity|].
  destruct (fencedInterior rawText) as [[|c i]|]; reflexivity.
Qed.

(** C8: on a text with no triple-backtick marker, normalizing the output
    again changes nothing. *)
Theorem formatResponse_idempotent (x : jsstring) :
  includes fence x = false ->
  formatResponse (code (formatResponse x)) = formatResponse x.
Proof.
  intros Hx. rewrite (formatResponse_nofence _ Hx). cbn [code].
  rewrite formatResponse_nofence.
  - now rewrite trim_idempotent.
  - eapply includes_mono; [apply trim_Infix | exact Hx].
Qed.

Lemma formatResponse_idempotent_witness :
  includes fence (units "  no fences here ") = false
  /\ formatResponse (code (formatResponse (units "  no fences here ")))
     = formatResponse (units "  no fences here ").
Proof.
  split; [reflexivity|].
  apply (formatResponse_idempotent (units "  no fences here ")). reflexivity.
Defined.

(** C10: the output never holds three backticks in a row and has no
    whitespace at either end. *)
Theorem formatResponse_output_clean (rawText : jsstring) :
  includes fence (code (formatResponse rawText)) = false
  /\ trimmed (code (formatResponse rawText)).
Proof.
  split; [apply formatResponse_clean | apply formatResponse_trimmed].
Qed.

End NormalizerFacts.

(* ================================================================== *)
(** ** Classifying a failure by its message *)
(* ================================================================== *)

Section Classification.

Lemma lowerUnit_plain (c x : N) :
  plainLetter x = true ->
  (exists u, lowerUnit c = x :: u) ->
  lowerUnit c = [x] /\ foldCase c = x.
Proof.
  intros Hx [u Hu]. unfold lowerUnit, foldCase in *.
  destruct (between 65 90 c) eqn:B.
  - injection Hu as <- <-. auto.
  - destruct (N.eqb_spec c 8490).
    + injection Hu as <- <-. discriminate Hx.
    + destruct (N.eqb_spec c 304).
      * injection Hu as <- <-. discriminate Hx.
      * injection Hu as <- <-. auto.
Qed.

Lemma foldCase_plain (c x : N) :
  plainLetter x = true -> foldCase c = x -> lowerUnit c = [x].
Proof.
  intros Hx <-. unfold lowerUnit, foldCase in *.
  destruct (between 65 90 c) eqn:B; [reflexivity|].
  destruct (N.eqb_spec c 8490); [subst; discriminate Hx|].
  destruct (N.eqb_spec c 304); [subst; discriminate Hx|].
  reflexivity.
Qed.

Lemma lowerUnit_head (c : N) : exists h u, lowerUnit c = h :: u.
Proof.
  unfold lowerUnit.
  destruct (between 65 90 c); [eauto|].
  destruct (c =? 8490)%N; [eauto|].
  destruct (c =? 304)%N; eauto.
Qed.

Lemma toLowerCase_plain (v n : jsstring) :
  forallb plainLetter n = true -> map foldCase v = n -> toLowerCase v = n.
Proof.
  revert n. induction v as [|c v IH]; intros n Hn Hv.
  - exact Hv.
  - destruct n as [|x n]; [discriminate|]. injection Hv as Hc Hv.
    cbn [forallb] in Hn. apply andb_true_iff in Hn. destruct Hn as [Hx Hn].
    unfold toLowerCase. cbn [flat_map].
    rewrite (foldCase_plain c x Hx Hc). simpl. f_equal.
    now apply IH.
Qed.

Lemma startsWith_toLowerCase (n m : jsstring) :
  forallb plainLetter n = true ->
  startsWith n (toLowerCase m) = true ->
  exists v r, m = v ++ r /\ map foldCase v = n.
Proof.
  revert m. induction n as [|x n IH]; intros m Hn H.
  - now exists [], m.
  - cbn [forallb] in Hn. apply andb_true_iff in Hn. destruct Hn as [Hx Hn].
    destruct m as [|c m]; [discriminate H|].
    unfold toLowerCase in H. cbn [flat_map] in H.
    destruct (lowerUnit_head c) as [h [u Hu]].
    rewrite Hu in H. cbn [app startsWith] in H.
    apply andb_true_iff in H. destruct H as [Hh H].
    apply N.eqb_eq in Hh. subst h.
    destruct (lowerUnit_plain c x Hx (ex_intro _ u Hu)) as [Hone Hfold].
    rewrite Hone in Hu. injection Hu as <-.
    destruct (IH m Hn H) as [v [r [-> Hv]]].
    exists (c :: v), r. split; [reflexivity|]. simpl. now rewrite Hfold, Hv.
Qed.

Lemma Infix_cons (w s : jsstring) (c : N) : Infix w s -> Infix w (c :: s).
Proof. intros [a [b ->]]. now exists (c :: a), b. Qed.

Lemma includes_toLowerCase (x : N) (n m : jsstring) :
  forallb plainLetter (x :: n) = true ->
  includes (x :: n) (toLowerCase m) = true <-> InfixNoCase (x :: n) m.
Proof.
  intros Hn. split.
  - induction m as [|c m IH]; intros H; [discriminate H|].
    assert (Hhere : startsWith (x :: n) (toLowerCase (c :: m)) = true ->
                    InfixNoCase (x :: n) (c :: m)).
    { intros S. destruct (startsWith_toLowerCase _ _ Hn S) as [v [r [Hm Hv]]].
      exists v. split; [|exact Hv]. exists [], r. exact Hm. }
    assert (Hlater : includes (x :: n) (toLowerCase m) = true ->
                     InfixNoCase (x :: n) (c :: m)).
    { intros S. destruct (IH S) as [v [Hv1 Hv2]].
      exists v. split; [now apply Infix_cons | exact Hv2]. }
    assert (Hx : plainLetter x = true).
    { cbn [forallb] in Hn. now apply andb_true_iff in Hn. }
    revert H Hhere. unfold toLowerCase. cbn [flat_map].
    fold (toLowerCase m). unfold lowerUnit.
    destruct (between 65 90 c); [|destruct (c =? 8490)%N;
                                  [|destruct (c =? 304)%N]];
      cbn [app includes]; intros H Hhere;
      repeat (apply orb_true_iff in H; destruct H as [H|H]); auto.
    cbn [startsWith] in H. apply andb_true_iff in H. destruct H as [H _].
    apply N.eqb_eq in H. subst x. discriminate Hx.
  - intros [v [[a [b ->]] Hv]]. apply includes_spec.
    exists (toLowerCase a), (toLowerCase b).
    unfold toLowerCase. rewrite !flat_map_app. fold (toLowerCase v).
    now rewrite (toLowerCase_plain v (x :: n) Hn Hv).
Qed.

Lemma isQuotaError_spec (errorMsg : jsstring) :
  isQuotaError errorMsg = true
  <-> Infix (units "429") errorMsg \/ InfixNoCase (units "quota") errorMsg.
Proof.
  unfold isQuotaError. rewrite orb_true_iff, includes_spec.
  change (units "quota") with (113 :: units "uota")%N.
  rewrite includes_toLowerCase by reflexivity. reflexivity.
Qed.

Lemma isServiceOverloaded_spec (errorMsg : jsstring) :
  isServiceOverloaded errorMsg = true
  <-> Infix (units "503") errorMsg \/ Infix (units "Overloaded") errorMsg.
Proof.
  unfold isServiceOverloaded. now rewrite orb_true_iff, !includes_spec.
Qed.

Lemma classify_retryable (errorMsg : jsstring) :
  classify errorMsg <> FatalFailure
  <-> isQuotaError errorMsg || isServiceOverloaded errorMsg = true.
Proof.
  unfold classify.
  destruct (isQuotaError errorMsg), (isServiceOverloaded errorMsg); simpl;
    split; congruence.
Qed.

(** C4: a message that holds "429", or "quota" in any case, is a
    QuotaExceeded; failing that, one that holds "503" or "Overloaded" is a
    ServiceOverloaded; any other is a FatalFailure. *)
Theorem classify_spec (errorMsg : jsstring) :
  let quota := Infix (units "429") errorMsg
               \/ InfixNoCase (units "quota") errorMsg in
  let overloaded := Infix (units "503") errorMsg
                    \/ Infix (units "Overloaded") errorMsg in
  (classify errorMsg = QuotaExceeded <-> quota)
  /\ (classify errorMsg = ServiceOverloaded <-> ~ quota /\ overloaded)
  /\ (classify errorMsg = FatalFailure <-> ~ quota /\ ~ overloaded).
Proof.
  cbv zeta. rewrite <- isQuotaError_spec, <- isServiceOverloaded_spec.
  unfold classify.
  destruct (isQuotaError errorMsg), (isServiceOverloaded errorMsg); simpl;
    repeat split; try congruence; try tauto;
    intros; try discriminate;
    repeat match goal with H : _ /\ _ |- _ => destruct H end; congruence.
Qed.

End Classification.

(* ================================================================== *)
(** ** The key pool *)
(* ================================================================== *)

Section PoolFacts.

Variable apiKeys : list jsstring.
Hypothesis pool_nonempty : 0 < length apiKeys.
Hypothesis pool_truthy : allTruthy apiKeys.

Let size := length apiKeys.

Lemma keyOf_lookup (p : nat) :
  nth_error apiKeys (p mod size) = Some (keyOf apiKeys p).
Proof.
  unfold keyOf. apply nth_error_nth'. apply Nat.mod_upper_bound.
  unfold size. lia.
Qed.

Lemma keyOf_truthy (p : nat) : truthy (keyOf apiKeys p) = true.
Proof.
  pose proof (keyOf_lookup p) as H. apply nth_error_In in H.
  unfold allTruthy in pool_truthy. rewrite Forall_forall in pool_truthy.
  now apply pool_truthy.
Qed.

Lemma keyOf_wrap (p : nat) : keyOf apiKeys (p + size) = keyOf apiKeys p.
Proof.
  unfold keyOf. fold size.
  replace (p + size) with (p + 1 * size) by lia.
  now rewrite Nat.Div0.mod_add.
Qed.

Lemma succMod_step (p : nat) :
  succMod (Num (p mod size)) size = Num ((p + 1) mod size).
Proof.
  unfold succMod. destruct (Nat.eqb_spec size 0) as [E|E].
  - unfold size in E. lia.
  - now rewrite Nat.Div0.add_mod_idemp_l.
Qed.

(** One allocation: the key under the cursor, and the cursor one further. *)
Lemma getModel_run (st : state) (p : nat) :
  currentKeyIndex st = Num (p mod size) ->
  getModel apiKeys st
  = (inl (keyOf apiKeys p),
     {| currentKeyIndex := Num ((p + 1) mod size);
        trace := trace st ++ [NewClient (keyOf apiKeys p)] |}).
Proof.
  intros Hc. unfold getModel, bind, readIndex, writeIndex.
  rewrite Hc. fold size. rewrite succMod_step.
  cbn [keyAt]. rewrite keyOf_lookup.
  pose proof (keyOf_truthy p) as T.
  destruct (keyOf apiKeys p) as [|k ks]; [discriminate T|].
  reflexivity.
Qed.

Lemma createChatSession_run (st : state) (p : nat) :
  currentKeyIndex st = Num (p mod size) ->
  createChatSession apiKeys st
  = (inl {| sessionKey := keyOf apiKeys p |},
     {| currentKeyIndex := Num ((p + 1) mod size);
        trace := trace st ++ [NewClient (keyOf apiKeys p);
                              StartChat (keyOf apiKeys p)] |}).
Proof.
  intros Hc. unfold createChatSession, bind.
  rewrite (getModel_run st p Hc). unfold emit, ret. cbn [currentKeyIndex trace].
  now rewrite <- app_assoc.
Qed.

Lemma getModels_run (n : nat) (st : state) (p : nat) :
  currentKeyIndex st = Num (p mod size) ->
  getModels apiKeys n st
  = (map (fun j => inl (keyOf apiKeys j)) (seq p n),
     {| currentKeyIndex := Num ((p + n) mod size);
        trace := trace st ++ map (fun j => NewClient (keyOf apiKeys j))
                                 (seq p n) |}).
Proof.
  revert st p. induction n as [|n IH]; intros st p Hc.
  - cbn [getModels seq map]. rewrite Nat.add_0_r, app_nil_r, <- Hc.
    now destruct st.
  - cbn [getModels]. rewrite (getModel_run st p Hc).
    rewrite (IH _ (p + 1)) by reflexivity.
    cbn [seq map trace]. rewrite <- app_assoc.
    replace (p + 1 + n) with (p + S n) by lia.
    replace (p + 1) with (S p) by lia. reflexivity.
Qed.

(** Reading round the pool from [c] gives the pool rotated by [c]. *)
Lemma keyOf_seq (c : nat) :
  c < size -> map (keyOf apiKeys) (seq c size) = rotate c apiKeys.
Proof.
  intros Hc. apply nth_error_ext. intros i. unfold rotate.
  rewrite nth_error_map, nth_error_seq, nth_error_app, length_skipn.
  rewrite nth_error_skipn, nth_error_firstn. fold size.
  destruct (Nat.ltb_spec i size) as [Hi|Hi];
    destruct (Nat.ltb_spec i (size - c)) as [Hj|Hj]; try lia.
  - cbn [option_map]. unfold keyOf. fold size.
    rewrite Nat.mod_small by lia. symmetry. apply nth_error_nth'.
    fold size. lia.
  - destruct (Nat.ltb_spec (i - (size - c)) c) as [Hk|Hk]; try lia.
    cbn [option_map]. unfold keyOf. fold size.
    replace (c + i) with ((i - (size - c)) + 1 * size) by lia.
    rewrite Nat.Div0.mod_add, Nat.mod_small by lia.
    symmetry. apply nth_error_nth'. fold size. lia.
  - destruct (Nat.ltb_spec (i - (size - c)) c) as [Hk|Hk]; try lia.
    reflexivity.
Qed.

Lemma rotate_Permutation (c : nat) : Permutation (rotate c apiKeys) apiKeys.
Proof.
  unfold rotate. rewrite Permutation_app_comm. now rewrite firstn_skipn.
Qed.

Lemma rotate_0 : rotate 0 apiKeys = apiKeys.
Proof. unfold rotate. simpl. apply app_nil_r. Qed.

(** C3: from any cursor position [c], as many calls of [getModel] as the
    pool has keys hand out every key once, in the order of the pool read
    round from [c] (the order of the pool itself when [c] is 0), and the
    call after those hands out the first of them again. *)
Theorem getModel_round_robin (st : state) (c : nat) :
  currentKeyIndex st = Num c ->
  c < length apiKeys ->
  fst (getModels apiKeys (length apiKeys) st)
  = map inl (rotate c apiKeys)
  /\ Permutation (rotate c apiKeys) apiKeys
  /\ exists first,
       hd_error (fst (getModels apiKeys (S (length apiKeys)) st)) = Some first
       /\ nth_error (fst (getModels apiKeys (S (length apiKeys)) st))
                    (length apiKeys) = Some first.
Proof.
  intros Hst Hc. fold size in Hc |- *.
  assert (Hp : currentKeyIndex st = Num (c mod size)).
  { now rewrite Nat.mod_small. }
  rewrite !(getModels_run _ st c Hp). cbn [fst].
  split; [|split].
  - rewrite <- (keyOf_seq c Hc). now rewrite map_map.
  - apply rotate_Permutation.
  - exists (inl (keyOf apiKeys c)). split; [reflexivity|].
    rewrite seq_S, map_app, nth_error_app2; rewrite length_map, length_seq;
      [|lia].
    rewrite Nat.sub_diag. cbn [map nth_error]. now rewrite keyOf_wrap.
Qed.

End PoolFacts.

Lemma getModel_round_robin_witness :
  0 < length twoKeys
  /\ allTruthy twoKeys
  /\ fst (getModels twoKeys 2 {| currentKeyIndex := Num 1; trace := [] |})
     = [inl keyTwo; inl keyOne]
  /\ nth_error
       (fst (getModels twoKeys 3 {| currentKeyIndex := Num 1; trace := [] |})) 2
     = Some (inl keyTwo).
Proof.
  assert (Hn : 0 < length twoKeys) by (simpl; lia).
  assert (Ht : allTruthy twoKeys) by (repeat constructor).
  destruct (getModel_round_robin twoKeys Hn Ht
              {| currentKeyIndex := Num 1; trace := [] |} 1 eq_refl)
    as [H1 [_ [first [H2 H3]]]]; [simpl; lia|].
  split; [exact Hn|]. split; [exact Ht|]. split; [exact H1|].
  injection H2 as <-. exact H3.
Defined.

(* ================================================================== *)
(** ** The retry loop *)
(* ================================================================== *)

Section LoopFacts.

Variable apiKeys : list jsstring.
Variable backend : nat -> jsstring -> jsstring -> outcome.
Hypothesis pool_nonempty : 0 < length apiKeys.
Hypothesis pool_truthy : allTruthy apiKeys.

Let size := length apiKeys.

Lemma sentKeys_app (a b : list event) :
  sentKeys (a ++ b) = sentKeys a ++ sentKeys b.
Proof. apply flat_map_app. Qed.

Lemma sessionKeys_app (a b : list event) :
  sessionKeys (a ++ b) = sessionKeys a ++ sessionKeys b.
Proof. apply flat_map_app. Qed.

Lemma sentKeys_retryEvents (k q : jsstring) (e : Err) (k' : jsstring) :
  sentKeys (retryEvents k q e k') = [k].
Proof.
  unfold retryEvents. now destruct (isServiceOverloaded (messageOr e)).
Qed.

Lemma sessionKeys_retryEvents (k q : jsstring) (e : Err) (k' : jsstring) :
  sessionKeys (retryEvents k q e k') = [k'].
Proof.
  unfold retryEvents. now destruct (isServiceOverloaded (messageOr e)).
Qed.

(** A retryable failure: rotate to the next key and go round again. *)
Lemma retryLoop_retry (q : jsstring) (rem att p : nat) (sess : Session)
  (le : option Err) (st : state) (e : Err) :
  currentKeyIndex st = Num ((p + 1) mod size) ->
  backend att (sessionKey sess) q = Failure e ->
  classify (messageOr e) <> FatalFailure ->
  retryLoop apiKeys backend q (S rem) att sess le st
  = retryLoop apiKeys backend q rem (S att)
      {| sessionKey := keyOf apiKeys (p + 1) |} (Some e)
      {| currentKeyIndex := Num ((p + 1 + 1) mod size);
         trace := trace st
                  ++ retryEvents (sessionKey sess) q e
                       (keyOf apiKeys (p + 1)) |}.
Proof.
  intros Hc Hb Hr. apply classify_retryable in Hr.
  cbn [retryLoop]. unfold bind at 1. unfold sendMessage at 1.
  unfold bind at 1. unfold emit at 1, ret at 1. rewrite Hb, Hr.
  unfold retryEvents.
  unfold bind at 1. unfold emit at 1. unfold bind at 1.
  destruct (isServiceOverloaded (messageOr e)).
  - unfold emit at 1. unfold bind at 1.
    rewrite (createChatSession_run apiKeys pool_nonempty pool_truthy _ (p + 1))
      by exact Hc.
    cbn [trace currentKeyIndex]. rewrite <- !app_assoc. reflexivity.
  - unfold ret at 1. unfold bind at 1.
    rewrite (createChatSession_run apiKeys pool_nonempty pool_truthy _ (p + 1))
      by exact Hc.
    cbn [trace currentKeyIndex]. rewrite <- !app_assoc. reflexivity.
Qed.

(** A fatal failure: out of the loop at once, with that error. *)
Lemma retryLoop_fatal (q : jsstring) (rem att : nat) (sess : Session)
  (le : option Err) (st : state) (e : Err) :
  backend att (sessionKey sess) q = Failure e ->
  classify (messageOr e) = FatalFailure ->
  retryLoop apiKeys backend q (S rem) att sess le st
  = (inr e,
     {| currentKeyIndex := currentKeyIndex st;
        trace := trace st ++ [SendMessage (sessionKey sess) q;
                              Log ERROR "API_ATTEMPT_ERROR"] |}).
Proof.
  intros Hb Hf.
  assert (Hr : isQuotaError (messageOr e) || isServiceOverloaded (messageOr e)
               = false).
  { destruct (isQuotaError (messageOr e) || isServiceOverloaded (messageOr e))
      eqn:E; [|reflexivity].
    apply classify_retryable in E. contradiction. }
  cbn [retryLoop]. cbv [bind sendMessage emit ret throw].
  rewrite Hb. cbv beta iota. rewrite Hr. cbn [trace currentKeyIndex].
  now rewrite <- app_assoc.
Qed.

(** [k] retryable failures in a row: [k] messages sent, on the keys at
    positions [p .. p + k - 1] round the pool, and [k] new sessions. *)
Lemma retryLoop_retries (q : jsstring) (k : nat) :
  forall (rem att p : nat) (le : option Err) (st : state),
    currentKeyIndex st = Num ((p + 1) mod size) ->
    (forall i, i < k ->
       exists e, backend (att + i) (keyOf apiKeys (p + i)) q = Failure e
                 /\ classify (messageOr e) <> FatalFailure) ->
    exists evs le',
      retryLoop apiKeys backend q (k + rem) att
        {| sessionKey := keyOf apiKeys p |} le st
      = retryLoop apiKeys backend q rem (att + k)
          {| sessionKey := keyOf apiKeys (p + k) |} le'
          {| currentKeyIndex := Num ((p + k + 1) mod size);
             trace := trace st ++ evs |}
      /\ sentKeys evs = map (keyOf apiKeys) (seq p k)
      /\ sessionKeys evs = map (keyOf apiKeys) (seq (p + 1) k)
      /\ lastAfter apiKeys backend q att p k le le'.
Proof.
  induction k as [|k IH]; intros rem att p le st Hc H.
  - exists [], le. rewrite !Nat.add_0_r, app_nil_r, <- Hc.
    repeat split. now destruct st.
  - destruct (H 0 ltac:(lia)) as [e [Hb Hr]].
    rewrite !Nat.add_0_r in Hb.
    cbn [Nat.add].
    rewrite (retryLoop_retry q (k + rem) att p
               {| sessionKey := keyOf apiKeys p |} le st e Hc Hb Hr).
    cbn [sessionKey].
    edestruct (IH rem (S att) (p + 1) (Some e)) as [evs [le' [E [S1 [S2 L]]]]];
      [ | | rewrite E ].
    + cbn [currentKeyIndex]. reflexivity.
    + intros i Hi. destruct (H (S i) ltac:(lia)) as [e' He'].
      exists e'. now replace (S att + i) with (att + S i) by lia;
        replace (p + 1 + i) with (p + S i) by lia.
    + exists (retryEvents (keyOf apiKeys p) q e (keyOf apiKeys (p + 1)) ++ evs),
        le'.
      cbn [trace]. rewrite <- app_assoc.
      replace (S att + k) with (att + S k) by lia.
      replace (p + 1 + k) with (p + S k) by lia.
      split; [reflexivity|].
      rewrite sentKeys_app, sessionKeys_app, sentKeys_retryEvents,
        sessionKeys_retryEvents, S1, S2.
      replace (p + 1 + 1) with (S (p + 1)) by lia.
      replace (p + 1) with (S p) by lia.
      repeat split.
      destruct k as [|k'].
      * cbn [lastAfter] in L |- *. exists e. now rewrite !Nat.add_0_r.
      * cbn [lastAfter] in L |- *. destruct L as [e' [L1 L2]].
        exists e'. split; [|exact L2].
        now replace (att + S k') with (S att + k') by lia;
          replace (p + S k') with (p + 1 + k') by lia.
Qed.

End LoopFacts.

(* ================================================================== *)
(** ** The endpoint *)
(* ================================================================== *)

Section HandlerFacts.

Variable apiKeys : list jsstring.
Variable backend : nat -> jsstring -> jsstring -> outcome.
Hypothesis pool_nonempty : 0 < length apiKeys.
Hypothesis pool_truthy : allTruthy apiKeys.

Let size := length apiKeys.

(** Up to the loop: the request is logged and the first session made;
    after it: what the loop left is turned into the response. *)
Lemma handler_run (q : jsstring) (st : state) (c : nat) :
  truthy q = true ->
  currentKeyIndex st = Num c ->
  c < size ->
  handler apiKeys backend (Some q) st
  = match retryLoop apiKeys backend q (MAX_RETRIES apiKeys) 0
            {| sessionKey := keyOf apiKeys c |} None
            {| currentKeyIndex := Num ((c + 1) mod size);
               trace := trace st ++ [Log INFO "REQUEST";
                                     NewClient (keyOf apiKeys c);
                                     StartChat (keyOf apiKeys c)] |}
    with
    | (inl (Returned r), st') => (inl r, st')
    | (inl (Exhausted lastError), st') =>
        (inl (internalError (Some (exhaustedMessage apiKeys lastError))),
         {| currentKeyIndex := currentKeyIndex st';
            trace := trace st' ++ [Log ERROR "CRITICAL_SERVER_ERROR"] |})
    | (inr e, st') =>
        (inl (internalError (message e)),
         {| currentKeyIndex := currentKeyIndex st';
            trace := trace st' ++ [Log ERROR "CRITICAL_SERVER_ERROR"] |})
    end.
Proof.
  intros Hq Hc Hlt. destruct q as [|x xs]; [discriminate Hq|].
  unfold handler, tryCatch. unfold bind at 1. unfold emit at 1.
  cbn [missing]. fold size.
  destruct (Nat.eqb_spec size 0) as [E|_]; [unfold size in E; lia|].
  unfold bind at 1.
  rewrite (createChatSession_run apiKeys pool_nonempty pool_truthy _ c)
    by (cbn [currentKeyIndex]; fold size; now rewrite Nat.mod_small).
  cbn [trace currentKeyIndex]. fold size. rewrite <- app_assoc. cbn [app].
  unfold bind at 1.
  destruct (retryLoop apiKeys backend (x :: xs) (MAX_RETRIES apiKeys) 0 _ None _)
    as [[[r|le]|e] st']; reflexivity.
Qed.

(** Every attempt fails and is retried: the loop runs dry. *)
Lemma handler_exhausted_run (q : jsstring) (st : state) (c : nat) :
  truthy q = true ->
  currentKeyIndex st = Num c ->
  c < size ->
  (forall i, i < 2 * size ->
     exists e, backend i (keyOf apiKeys (c + i)) q = Failure e
               /\ classify (messageOr e) <> FatalFailure) ->
  exists e evs,
    backend (2 * size - 1) (keyOf apiKeys (c + (2 * size - 1))) q = Failure e
    /\ handler apiKeys backend (Some q) st
       = (inl (internalError
                 (Some (units "Failed after " ++ decimal (2 * size)
                        ++ units " attempts. Last error: "
                        ++ interpolate (message e)))),
          {| currentKeyIndex := Num ((c + 1) mod size);
             trace := trace st ++ evs |})
    /\ sentKeys evs = map (keyOf apiKeys) (seq c (2 * size))
    /\ sessionKeys evs = map (keyOf apiKeys) (seq c (S (2 * size))).
Proof.
  intros Hq Hc Hlt H.
  rewrite (handler_run q st c Hq Hc Hlt).
  assert (Hmax : MAX_RETRIES apiKeys = 2 * size)
    by (unfold MAX_RETRIES; fold size; lia).
  rewrite Hmax.
  edestruct (retryLoop_retries apiKeys backend pool_nonempty pool_truthy
               q (2 * size) 0 0 c None)
    as [evs [le' [E [S1 [S2 L]]]]]; [ | | rewrite Nat.add_0_r in E; rewrite E ].
  - cbn [currentKeyIndex]. reflexivity.
  - intros i Hi. cbn [Nat.add]. now apply H.
  - destruct (2 * size) as [|m] eqn:Em; [unfold size in Em; lia|].
    cbn [lastAfter Nat.add] in L. destruct L as [e [L1 L2]]. subst le'.
    exists e. eexists.
    split; [now replace (S m - 1) with m by lia|].
    cbn [retryLoop]. unfold ret. cbn [trace currentKeyIndex].
    unfold exhaustedMessage. rewrite Hmax.
    assert (Hwrap : (c + S m + 1) mod length apiKeys = (c + 1) mod size).
    { fold size. replace (c + S m + 1) with (c + 1 + 2 * size) by lia.
      apply Nat.Div0.mod_add. }
    rewrite Hwrap.
    split; [|split].
    + rewrite <- !app_assoc. reflexivity.
    + rewrite !sentKeys_app, S1. cbn [sentKeys flat_map app].
      apply app_nil_r.
    + rewrite !sessionKeys_app, S2. cbn [sessionKeys flat_map app].
      rewrite app_nil_r. replace (c + 1) with (S c) by lia. reflexivity.
Qed.

(** Some attempt fails fatally, those before it having been retried. *)
Lemma handler_fatal_run (q : jsstring) (st : state) (c k : nat) (e : Err) :
  truthy q = true ->
  currentKeyIndex st = Num c ->
  c < size ->
  k < 2 * size ->
  (forall i, i < k ->
     exists e', backend i (keyOf apiKeys (c + i)) q = Failure e'
                /\ classify (messageOr e') <> FatalFailure) ->
  backend k (keyOf apiKeys (c + k)) q = Failure e ->
  classify (messageOr e) = FatalFailure ->
  exists evs,
    handler apiKeys backend (Some q) st
    = (inl (internalError (message e)),
       {| currentKeyIndex := Num ((c + k + 1) mod size);
          trace := trace st ++ evs |})
    /\ sentKeys evs = map (keyOf apiKeys) (seq c (S k))
    /\ sessionKeys evs = map (keyOf apiKeys) (seq c (S k)).
Proof.
  intros Hq Hc Hlt Hk H Hb Hf.
  rewrite (handler_run q st c Hq Hc Hlt).
  assert (Hmax : MAX_RETRIES apiKeys = k + S (2 * size - S k))
    by (unfold MAX_RETRIES; fold size; lia).
  rewrite Hmax.
  edestruct (retryLoop_retries apiKeys backend pool_nonempty pool_truthy
               q k (S (2 * size - S k)) 0 c None)
    as [evs [le' [E [S1 [S2 _]]]]]; [ | | rewrite E ].
  - cbn [currentKeyIndex]. reflexivity.
  - intros i Hi. cbn [Nat.add]. now apply H.
  - cbn [Nat.add].
    rewrite (retryLoop_fatal apiKeys backend q _ k
               {| sessionKey := keyOf apiKeys (c + k) |} le' _ e Hb Hf).
    cbn [trace currentKeyIndex sessionKey].
    eexists. split; [|split].
    + rewrite <- !app_assoc. reflexivity.
    + rewrite !sentKeys_app, S1. cbn [sentKeys flat_map app].
      now rewrite seq_S, map_app.
    + rewrite !sessionKeys_app, S2. cbn [sessionKeys flat_map app].
      rewrite app_nil_r. replace (c + 1) with (S c) by lia. reflexivity.
Qed.

End HandlerFacts.

(* ================================================================== *)
(** ** The cursor stays an index *)
(* ================================================================== *)

Section CursorFacts.

Variable apiKeys : list jsstring.
Hypothesis pool_nonempty : 0 < length apiKeys.

Lemma preserves_ret {A} (a : A) : preserves apiKeys (ret a).
Proof. intros st H. exact H. Qed.

Lemma preserves_throw {A} (e : Err) : preserves apiKeys (@throw A e).
Proof. intros st H. exact H. Qed.

Lemma preserves_emit (e : event) : preserves apiKeys (emit e).
Proof. intros st H. exact H. Qed.

Lemma preserves_bind {A B} (c : M A) (k : A -> M B) :
  preserves apiKeys c -> (forall a, preserves apiKeys (k a)) ->
  preserves apiKeys (bind c k).
Proof.
  intros Hc Hk st H. unfold bind. specialize (Hc st H).
  destruct (c st) as [[a|e] st']; [now apply Hk | exact Hc].
Qed.

Lemma preserves_tryCatch {A} (c : M A) (h : Err -> M A) :
  preserves apiKeys c -> (forall e, preserves apiKeys (h e)) ->
  preserves apiKeys (tryCatch c h).
Proof.
  intros Hc Hh st H. unfold tryCatch. specialize (Hc st H).
  destruct (c st) as [[a|e] st']; [exact Hc | now apply Hh].
Qed.

(** [getModel] moves the cursor one step round the pool, whether or not
    it goes on to throw. *)
Lemma getModel_advances (st : state) (c : nat) :
  currentKeyIndex st = Num c ->
  currentKeyIndex (snd (getModel apiKeys st))
  = Num ((c + 1) mod length apiKeys).
Proof.
  intros Hc. unfold getModel, bind, readIndex, writeIndex. rewrite Hc.
  cbn [succMod keyAt].
  destruct (Nat.eqb_spec (length apiKeys) 0) as [E|_]; [lia|].
  destruct (nth_error apiKeys c) as [[|x k]|]; reflexivity.
Qed.

Lemma preserves_getModel : preserves apiKeys (getModel apiKeys).
Proof.
  intros st [c [Hc Hlt]]. exists ((c + 1) mod length apiKeys).
  split; [now apply getModel_advances|].
  apply Nat.mod_upper_bound. lia.
Qed.

Lemma preserves_createChatSession :
  preserves apiKeys (createChatSession apiKeys).
Proof.
  unfold createChatSession.
  apply preserves_bind; [apply preserves_getModel|]. intros model.
  apply preserves_bind; [apply preserves_emit|]. intros _.
  apply preserves_ret.
Qed.

Lemma preserves_retryLoop (backend : nat -> jsstring -> jsstring -> outcome)
  (q : jsstring) (rem : nat) :
  forall att sess le,
    preserves apiKeys (retryLoop apiKeys backend q rem att sess le).
Proof.
  induction rem as [|rem IH]; intros att sess le.
  - apply preserves_ret.
  - cbn [retryLoop]. apply preserves_bind.
    { unfold sendMessage. apply preserves_bind; [apply preserves_emit|].
      intros _. apply preserves_ret. }
    intros [text|err]; cbv zeta.
    + apply preserves_bind; [apply preserves_emit|]. intros _.
      apply preserves_bind; [apply preserves_emit|]. intros _.
      apply preserves_ret.
    + destruct (isQuotaError (messageOr err)
                || isServiceOverloaded (messageOr err)).
      * apply preserves_bind; [apply preserves_emit|]. intros _.
        apply preserves_bind.
        { destruct (isServiceOverloaded (messageOr err));
            [apply preserves_emit | apply preserves_ret]. }
        intros _.
        apply preserves_bind; [apply preserves_createChatSession|].
        intros sess'. apply IH.
      * apply preserves_bind; [apply preserves_emit|]. intros _.
        apply preserves_throw.
Qed.

Lemma preserves_handler (backend : nat -> jsstring -> jsstring -> outcome)
  (query : option jsstring) :
  preserves apiKeys (handler apiKeys backend query).
Proof.
  unfold handler. apply preserves_tryCatch.
  - apply preserves_bind; [apply preserves_emit|]. intros _.
    destruct (missing query).
    + apply preserves_bind; [apply preserves_emit|]. intros _.
      apply preserves_ret.
    + destruct (length apiKeys =? 0)%nat.
      * apply preserves_bind; [apply preserves_emit|]. intros _.
        apply preserves_ret.
      * cbv zeta.
        apply preserves_bind; [apply preserves_createChatSession|].
        intros sess.
        apply preserves_bind; [apply preserves_retryLoop|].
        intros [r|le]; [apply preserves_ret | apply preserves_throw].
  - intros e. apply preserves_bind; [apply preserves_emit|]. intros _.
    apply preserves_ret.
Qed.

(** C9: with a pool that is not empty, the cursor starts as an index into
    the pool, every [getModel] moves it on by exactly one modulo the size
    of the pool, and [getModel], [createChatSession] and a whole request
    leave it an index into the pool. *)
Theorem cursor_invariant :
  validIndex apiKeys initial
  /\ (forall st c,
        currentKeyIndex st = Num c -> c < length apiKeys ->
        currentKeyIndex (snd (getModel apiKeys st))
        = Num ((c + 1) mod length apiKeys)
        /\ (c + 1) mod length apiKeys < length apiKeys)
  /\ preserves apiKeys (getModel apiKeys)
  /\ preserves apiKeys (createChatSession apiKeys)
  /\ (forall backend query,
        preserves apiKeys (handler apiKeys backend query)).
Proof.
  split; [|split; [|split; [|split]]].
  - exists 0. split; [reflexivity | exact pool_nonempty].
  - intros st c Hc _. split; [now apply getModel_advances|].
    apply Nat.mod_upper_bound. lia.
  - apply preserves_getModel.
  - apply preserves_createChatSession.
  - intros backend query. apply preserves_handler.
Qed.

End CursorFacts.

Lemma cursor_invariant_witness :
  0 < length twoKeys
  /\ validIndex twoKeys initial
  /\ currentKeyIndex (snd (getModel twoKeys
                             {| currentKeyIndex := Num 1; trace := [] |}))
     = Num 0
  /\ validIndex twoKeys
       (snd (handler twoKeys quotaAlways (Some (units "hi")) initial)).
Proof.
  assert (Hn : 0 < length twoKeys) by (simpl; lia).
  destruct (cursor_invariant twoKeys Hn) as [H0 [H1 [_ [_ H4]]]].
  split; [exact Hn|]. split; [exact H0|]. split.
  - apply (H1 {| currentKeyIndex := Num 1; trace := [] |} 1 eq_refl).
    simpl; lia.
  - apply H4. exact H0.
Defined.

(* ================================================================== *)
(** ** A request from end to end *)
(* ================================================================== *)

Section RequestClaims.

Variable apiKeys : list jsstring.
Variable backend : nat -> jsstring -> jsstring -> outcome.
Hypothesis pool_nonempty : 0 < length apiKeys.
Hypothesis pool_truthy : allTruthy apiKeys.

Lemma retryable_not_fatal (m : jsstring) :
  classify m = QuotaExceeded \/ classify m = ServiceOverloaded ->
  classify m <> FatalFailure.
Proof. intros [H|H]; rewrite H; discriminate. Qed.

(** C1: when every attempt of a request fails with a QuotaExceeded or a
    ServiceOverloaded, the request sends exactly twice as many messages
    as the pool has keys, and then answers 500 with an error that wraps
    the failure of the last attempt. *)
Theorem handler_retry_ceiling (q : jsstring) (st : state) (c : nat) :
  truthy q = true ->
  currentKeyIndex st = Num c ->
  c < length apiKeys ->
  (forall i, i < 2 * length apiKeys ->
     exists e, backend i (keyOf apiKeys (c + i)) q = Failure e
               /\ (classify (messageOr e) = QuotaExceeded
                   \/ classify (messageOr e) = ServiceOverloaded)) ->
  exists e evs,
    backend (2 * length apiKeys - 1)
            (keyOf apiKeys (c + (2 * length apiKeys - 1))) q = Failure e
    /\ handler apiKeys backend (Some q) st
       = (inl (internalError
                 (Some (units "Failed after " ++ decimal (2 * length apiKeys)
                        ++ units " attempts. Last error: "
                        ++ interpolate (message e)))),
          {| currentKeyIndex := Num ((c + 1) mod length apiKeys);
             trace := trace st ++ evs |})
    /\ length (sentKeys evs) = 2 * length apiKeys.
Proof.
  intros Hq Hc Hlt H.
  destruct (handler_exhausted_run apiKeys backend pool_nonempty pool_truthy
              q st c Hq Hc Hlt) as [e [evs [Hb [Hh [S1 _]]]]].
  - intros i Hi. destruct (H i Hi) as [e [He Hr]].
    exists e. split; [exact He | now apply retryable_not_fatal].
  - exists e, evs. split; [exact Hb|]. split; [exact Hh|].
    now rewrite S1, length_map, length_seq.
Qed.

(** C5: an attempt that ends in a FatalFailure, the attempts before it
    having been retried, is the last one: the request answers 500
    with that very error, having sent one message and used one key per
    attempt made.  When it is the first attempt, one message has been
    sent and one key used. *)
Theorem handler_fatal_aborts (q : jsstring) (st : state) (c k : nat)
  (e : Err) :
  truthy q = true ->
  currentKeyIndex st = Num c ->
  c < length apiKeys ->
  k < 2 * length apiKeys ->
  (forall i, i < k ->
     exists e', backend i (keyOf apiKeys (c + i)) q = Failure e'
                /\ (classify (messageOr e') = QuotaExceeded
                    \/ classify (messageOr e') = ServiceOverloaded)) ->
  backend k (keyOf apiKeys (c + k)) q = Failure e ->
  classify (messageOr e) = FatalFailure ->
  exists evs,
    handler apiKeys backend (Some q) st
    = (inl (internalError (message e)),
       {| currentKeyIndex := Num ((c + k + 1) mod length apiKeys);
          trace := trace st ++ evs |})
    /\ length (sentKeys evs) = k + 1
    /\ length (sessionKeys evs) = k + 1
    /\ (k = 0 -> sentKeys evs = [keyOf apiKeys c]
                 /\ sessionKeys evs = [keyOf apiKeys c]).
Proof.
  intros Hq Hc Hlt Hk H Hb Hf.
  destruct (handler_fatal_run apiKeys backend pool_nonempty pool_truthy
              q st c k e Hq Hc Hlt Hk) as [evs [Hh [S1 S2]]];
    [ | exact Hb | exact Hf | ].
  - intros i Hi. destruct (H i Hi) as [e' [He' Hr]].
    exists e'. split; [exact He' | now apply retryable_not_fatal].
  - exists evs. split; [exact Hh|].
    rewrite S1, S2, !length_map, !length_seq.
    repeat split; try lia; subst k; reflexivity.
Qed.

End RequestClaims.

Lemma quotaAlways_retryable (i : nat) (k q : jsstring) :
  exists e, quotaAlways i k q = Failure e
            /\ (classify (messageOr e) = QuotaExceeded
                \/ classify (messageOr e) = ServiceOverloaded).
Proof. eexists. split; [reflexivity | left; reflexivity]. Qed.

Lemma twoKeys_truthy : allTruthy twoKeys.
Proof. repeat constructor. Qed.

Lemma handler_retry_ceiling_witness :
  exists e evs,
    quotaAlways 3 keyTwo (units "hi") = Failure e
    /\ handler twoKeys quotaAlways (Some (units "hi")) initial
       = (inl (internalError
                 (Some (units "Failed after 4 attempts. Last error: "
                        ++ interpolate (message e)))),
          {| currentKeyIndex := Num 1; trace := [] ++ evs |})
    /\ length (sentKeys evs) = 4.
Proof.
  apply (handler_retry_ceiling twoKeys quotaAlways
           ltac:(simpl; lia) twoKeys_truthy (units "hi") initial 0).
  - reflexivity.
  - reflexivity.
  - simpl; lia.
  - intros i _. apply quotaAlways_retryable.
Defined.

Lemma handler_fatal_aborts_witness :
  exists evs,
    handler twoKeys fatalAtOnce (Some (units "hi")) initial
    = (inl (internalError (Some (units "API key not valid"))),
       {| currentKeyIndex := Num 1; trace := [] ++ evs |})
    /\ length (sentKeys evs) = 1
    /\ length (sessionKeys evs) = 1
    /\ (0 = 0 -> sentKeys evs = [keyOne] /\ sessionKeys evs = [keyOne]).
Proof.
  apply (handler_fatal_aborts twoKeys fatalAtOnce
           ltac:(simpl; lia) twoKeys_truthy (units "hi") initial 0 0
           (newError (units "API key not valid"))).
  - reflexivity.
  - reflexivity.
  - simpl; lia.
  - simpl; lia.
  - intros i Hi. lia.
  - reflexivity.
  - reflexivity.
Defined.

(** C7: a request whose [query] is absent or empty is answered 400 with
    the message "Missing 'query' parameter."; nothing is done but two log
    records: no client, no session, no message, and the cursor stays. *)
Theorem handler_missing_query (apiKeys : list jsstring)
  (backend : nat -> jsstring -> jsstring -> outcome)
  (query : option jsstring) (st : state) :
  query = None \/ query = Some [] ->
  exists evs,
    handler apiKeys backend query st
    = (inl {| status := 400;
              body := ErrorBody (units "Missing 'query' parameter.") None |},
       {| currentKeyIndex := currentKeyIndex st; trace := trace st ++ evs |})
    /\ clientKeys evs = []
    /\ sessionKeys evs = []
    /\ sentKeys evs = [].
Proof.
  intros H. exists [Log INFO "REQUEST"; Log WARN "BAD_REQUEST"].
  split; [|repeat split].
  destruct H as [-> | ->]; cbv [handler tryCatch bind emit ret missing];
    cbn [trace currentKeyIndex]; now rewrite <- app_assoc.
Qed.

Lemma handler_missing_query_witness :
  exists evs,
    handler twoKeys quotaAlways (Some []) initial
    = (inl {| status := 400;
              body := ErrorBody (units "Missing 'query' parameter.") None |},
       {| currentKeyIndex := Num 0; trace := [] ++ evs |})
    /\ clientKeys evs = []
    /\ sessionKeys evs = []
    /\ sentKeys evs = [].
Proof.
  apply (handler_missing_query twoKeys quotaAlways (Some []) initial).
  right. reflexivity.
Defined.

(** C6, as stated, fails: a process that has just started, with two keys
    and no quota on either, sends its four messages on key 1, key 2,
    key 1, key 2. *)
Lemma two_keys_fresh_order :
  sentKeys (trace (snd (handler twoKeys quotaAlways (Some (units "hi"))
                          initial)))
  = [keyOne; keyTwo; keyOne; keyTwo]
  /\ sentKeys (trace (snd (handler twoKeys quotaAlways (Some (units "hi"))
                             initial)))
     <> [keyTwo; keyOne; keyTwo; keyOne].
Proof. split; [vm_compute; reflexivity | vm_compute; discriminate]. Qed.

(** C6, amended: with two keys and a quota error on every attempt, four
    messages are sent, on alternating keys, the first on the key under
    the cursor when the request comes in: key 1, 2, 1, 2 from cursor 0
    (a fresh process), key 2, 1, 2, 1 from cursor 1; then the request
    fails, retries exhausted. *)
Theorem two_keys_rotation (k1 k2 q : jsstring)
  (backend : nat -> jsstring -> jsstring -> outcome)
  (st : state) (c : nat) :
  truthy k1 = true -> truthy k2 = true -> truthy q = true ->
  currentKeyIndex st = Num c ->
  c < 2 ->
  (forall i k, exists e, backend i k q = Failure e
                         /\ isQuotaError (messageOr e) = true) ->
  exists e evs,
    handler [k1; k2] backend (Some q) st
    = (inl (internalError
              (Some (units "Failed after 4 attempts. Last error: "
                     ++ interpolate (message e)))),
       {| currentKeyIndex := Num ((c + 1) mod 2);
          trace := trace st ++ evs |})
    /\ sentKeys evs = (if (c =? 0)%nat then [k1; k2; k1; k2]
                       else [k2; k1; k2; k1])
    /\ sessionKeys evs = (if (c =? 0)%nat then [k1; k2; k1; k2; k1]
                          else [k2; k1; k2; k1; k2]).
Proof.
  intros H1 H2 Hq Hc Hlt H.
  assert (Hn : 0 < length [k1; k2]) by (simpl; lia).
  assert (Ht : allTruthy [k1; k2]) by (repeat constructor; assumption).
  destruct (handler_exhausted_run [k1; k2] backend Hn Ht q st c Hq Hc Hlt)
    as [e [evs [_ [Hh [S1 S2]]]]].
  - intros i _. destruct (H i (keyOf [k1; k2] (c + i))) as [e [He Hr]].
    exists e. split; [exact He|]. unfold classify. rewrite Hr. discriminate.
  - exists e, evs. split; [exact Hh|].
    rewrite S1, S2.
    destruct c as [|[|c]]; [split; reflexivity | split; reflexivity | lia].
Qed.

Lemma two_keys_rotation_witness :
  exists e evs,
    handler [keyOne; keyTwo] quotaAlways (Some (units "hi"))
      {| currentKeyIndex := Num 1; trace := [] |}
    = (inl (internalError
              (Some (units "Failed after 4 attempts. Last error: "
                     ++ interpolate (message e)))),
       {| currentKeyIndex := Num 0; trace := [] ++ evs |})
    /\ sentKeys evs = [keyTwo; keyOne; keyTwo; keyOne]
    /\ sessionKeys evs = [keyTwo; keyOne; keyTwo; keyOne; keyTwo].
Proof.
  apply (two_keys_rotation keyOne keyTwo (units "hi") quotaAlways
           {| currentKeyIndex := Num 1; trace := [] |} 1).
  - reflexivity.
  - reflexivity.
  - reflexivity.
  - reflexivity.
  - lia.
  - intros i k. eexists. split; reflexivity.
Defined.

(* ================================================================== *)
(** ** The pool as the process reads it, and worked examples *)
(* ================================================================== *)

(** Whatever the environment holds, the keys parsed from it are all
    non-empty strings: [getModel] never throws on a pool that has keys. *)
Lemma parseKeys_truthy (envKeys : jsstring) : allTruthy (parseKeys envKeys).
Proof.
  unfold allTruthy, parseKeys. apply Forall_forall. intros k Hk.
  apply filter_In in Hk. apply Hk.
Qed.

Example parseKeys_spaces :
  parseKeys (units " key-1, ,key-2,,") = [keyOne; keyTwo].
Proof. reflexivity. Qed.

Example parseKeys_unset : parseKeys [] = [].
Proof. reflexivity. Qed.

Example getModel_empty_pool :
  getModels [] 2 initial
  = ([inr (newError (units "No available API keys."));
      inr (newError (units "No available API keys."))],
     {| currentKeyIndex := NaN; trace := [] |}).
Proof. reflexivity. Qed.

Example formatResponse_js_block :
  formatResponse jsBlock = {| code := units "console.log(1)" |}.
Proof. reflexivity. Qed.

Example formatResponse_no_fence :
  formatResponse (units "no fences here")
  = {| code := units "no fences here" |}.
Proof. reflexivity. Qed.

Example formatResponse_stray_marker :
  formatResponse (units " let x = 1; ```") = {| code := units "let x = 1;" |}.
Proof. reflexivity. Qed.

Example formatResponse_first_block_only :
  formatResponse (units "a ``` b``` c ```d```") = {| code := units "b" |}.
Proof. reflexivity. Qed.

(** A word right after the opening marker is its language tag: the
    interior is then empty and the fallback applies. *)
Example formatResponse_tag_not_interior :
  formatResponse (units "a ```b``` c") = {| code := units "a b c" |}.
Proof. reflexivity. Qed.

Example classify_examples :
  classify (units "[429 Too Many Requests]") = QuotaExceeded
  /\ classify (units "Quota exceeded; 503") = QuotaExceeded
  /\ classify (units "503 Service Unavailable") = ServiceOverloaded
  /\ classify (units "The model is Overloaded") = ServiceOverloaded
  /\ classify (units "the model is overloaded") = FatalFailure
  /\ classify [] = FatalFailure.
Proof. repeat split. Qed.

Example handler_third_attempt :
  let (r, st) := handler twoKeys thirdTimeLucky (Some (units "hi")) initial in
  r = inl {| status := 200;
             body := CodeBody {| code := units "console.log(1)" |} |}
  /\ sentKeys (trace st) = [keyOne; keyTwo; keyOne]
  /\ currentKeyIndex st = Num 1.
Proof. vm_compute. repeat split. Qed.

Example handler_no_keys :
  fst (handler [] quotaAlways (Some (units "hi")) initial)
  = inl {| status := 500;
           body := ErrorBody (units "Server config error: No API keys.")
                             None |}.
Proof. reflexivity. Qed.

(* ================================================================== *)
(** ** More on the normalizer *)
(* ================================================================== *)

Section NormalizerMore.

Lemma Subseq_refl (s : jsstring) : Subseq s s.
Proof. induction s; constructor; assumption. Qed.

Lemma Subseq_nil_l (s : jsstring) : Subseq [] s.
Proof. induction s; constructor; assumption. Qed.

Lemma Subseq_trans (a b c : jsstring) : Subseq a b -> Subseq b c -> Subseq a c.
Proof.
  intros Hab Hbc. revert a Hab.
  induction Hbc as [| x b c Hbc IH | x b c Hbc IH]; intros a Hab.
  - exact Hab.
  - constructor. now apply IH.
  - inversion Hab; subst; constructor; now apply IH.
Qed.

Lemma Subseq_Infix (w s : jsstring) : Infix w s -> Subseq w s.
Proof.
  intros [a [b ->]]. induction a as [|x a IH]; cbn [app].
  - induction w as [|y w IHw]; cbn [app];
      [apply Subseq_nil_l | now constructor].
  - now constructor.
Qed.

Lemma Subseq_length (a b : jsstring) : Subseq a b -> length a <= length b.
Proof. induction 1; simpl; lia. Qed.

Lemma Subseq_stripFences (s : jsstring) : Subseq (stripFences s) s.
Proof.
  induction s as [| r IH | a r Hhead IH] using fence_scan_ind.
  - constructor.
  - rewrite stripFences_fence. now do 3 constructor.
  - rewrite (stripFences_step _ _ Hhead). now constructor.
Qed.

Lemma fencedInterior_Infix (s i : jsstring) :
  fencedInterior s = Some i -> Infix i s.
Proof.
  intros H. destruct (fencedInterior_block s i H)
    as [pre [tag [nl [post [-> _]]]]].
  exists (pre ++ fence ++ tag ++ nl), (fence ++ post).
  now rewrite <- !app_assoc.
Qed.

(** X1: the [code] of [formatResponse] is the raw text with units left
    out: nothing is invented, nothing reordered, and the result is never
    longer than the input. *)
Theorem formatResponse_subsequence (rawText : jsstring) :
  Subseq (code (formatResponse rawText)) rawText
  /\ length (code (formatResponse rawText)) <= length rawText.
Proof.
  assert (H : Subseq (code (formatResponse rawText)) rawText).
  { rewrite formatResponse_unfold. cbn [code].
    destruct (fencedInterior rawText) as [[|c i]|] eqn:E.
    - eapply Subseq_trans; [apply Subseq_Infix, trim_Infix|].
      apply Subseq_stripFences.
    - apply Subseq_Infix. eapply Infix_trans; [apply trim_Infix|].
      now apply fencedInterior_Infix.
    - eapply Subseq_trans; [apply Subseq_Infix, trim_Infix|].
      apply Subseq_stripFences. }
  split; [exact H | now apply Subseq_length].
Qed.

(** X2: normalizing the output of [formatResponse] again changes nothing,
    whatever the input was. *)
Theorem formatResponse_fixed_point (rawText : jsstring) :
  formatResponse (code (formatResponse rawText)) = formatResponse rawText.
Proof.
  pose proof (formatResponse_clean rawText) as Hc.
  pose proof (formatResponse_trimmed rawText) as Ht.
  rewrite (formatResponse_nofence _ Hc), (trim_fixed _ Ht).
  now destruct (formatResponse rawText).
Qed.

Lemma startsWith_fence_app (s t : jsstring) :
  3 <= length s -> startsWith fence (s ++ t) = startsWith fence s.
Proof.
  intros H. destruct s as [|a [|b [|c s]]]; simpl in H; try lia. reflexivity.
Qed.

Lemma splitFence_app (s t a b : jsstring) :
  splitFence s = Some (a, b) -> splitFence (s ++ t) = Some (a, b ++ t).
Proof.
  revert a b. induction s as [|c r IH]; intros a b H; [discriminate|].
  assert (L : 3 <= length (c :: r)).
  { apply splitFence_Some in H. rewrite H, !length_app. simpl. lia. }
  cbn [splitFence] in H. cbn [app splitFence].
  change (c :: r ++ t) with ((c :: r) ++ t).
  rewrite (startsWith_fence_app _ t L).
  destruct (startsWith fence (c :: r)) eqn:E.
  - injection H as <- <-.
    apply startsWith_spec in E. destruct E as [u Hu].
    unfold fence in Hu. simpl in Hu. injection Hu as -> ->. reflexivity.
  - cbn [app]. destruct (splitFence r) as [[a' b']|]; [|discriminate].
    injection H as <- <-. now rewrite (IH a' b' eq_refl).
Qed.

Lemma skipTag_app (b t : jsstring) :
  includes fence b = true -> skipTag (b ++ t) = skipTag b ++ t.
Proof.
  unfold skipTag. induction b as [|c r IH]; intros H; [discriminate|].
  cbn [app dropWhile]. destruct (is_word c) eqn:W; [|reflexivity].
  apply IH. now rewrite <- (includes_fence_skip c r (is_word_not_tick c W)).
Qed.

Lemma skipNewline_app (b t : jsstring) :
  includes fence b = true -> skipNewline (b ++ t) = skipNewline b ++ t.
Proof.
  destruct b as [|c r]; [discriminate|]. intros _. cbn [app skipNewline].
  now destruct (c =? newline)%N.
Qed.

(** Text after a closed block does not change what is found. *)
Lemma fencedInterior_app (s t i : jsstring) :
  fencedInterior s = Some i -> fencedInterior (s ++ t) = Some i.
Proof.
  unfold fencedInterior.
  destruct (splitFence s) as [[a b]|] eqn:E1; [|discriminate].
  destruct (splitFence (skipNewline (skipTag b))) as [[x y]|] eqn:E2;
    [|discriminate].
  intros H. injection H as ->.
  rewrite (splitFence_app _ t _ _ E1).
  assert (Hb : includes fence b = true).
  { rewrite <- includes_fence_skipTag, <- includes_fence_skipNewline.
    destruct (includes fence (skipNewline (skipTag b))) eqn:F; [reflexivity|].
    apply splitFence_None in F. congruence. }
  rewrite (skipTag_app _ t Hb).
  rewrite skipNewline_app by now rewrite includes_fence_skipTag.
  now rewrite (splitFence_app _ t _ _ E2).
Qed.

(** Nor does text without a backtick before it. *)
Lemma fencedInterior_prepend (pre s : jsstring) :
  forallb (fun c => negb (isTick c)) pre = true ->
  fencedInterior (pre ++ s) = fencedInterior s.
Proof.
  induction pre as [|c pre IH]; intros H; [reflexivity|].
  cbn [forallb] in H. apply andb_true_iff in H. destruct H as [Hc H].
  cbn [app]. rewrite fencedInterior_skip; [now apply IH|].
  unfold fence. cbn [startsWith]. unfold isTick in Hc.
  apply negb_true_iff in Hc. now rewrite Hc.
Qed.

(** X3: once a fenced block with a non-empty interior is there, what
    stands before it (text without a backtick) and whatever stands after
    it are ignored: the [code] is the trimmed interior of that block. *)
Theorem formatResponse_block_only (pre s post : jsstring) (c : N)
  (i : jsstring) :
  forallb (fun x => negb (isTick x)) pre = true ->
  fencedInterior s = Some (c :: i) ->
  formatResponse (pre ++ s ++ post) = {| code := trim (c :: i) |}
  /\ formatResponse (pre ++ s ++ post) = formatResponse s.
Proof.
  intros Hpre Hs.
  assert (H : fencedInterior (pre ++ s ++ post) = Some (c :: i)).
  { rewrite (fencedInterior_prepend _ _ Hpre). now apply fencedInterior_app. }
  rewrite !formatResponse_unfold, H, Hs. split; reflexivity.
Qed.

Lemma formatResponse_block_only_witness :
  formatResponse (units "Sure: " ++ jsBlock ++ units " Enjoy ```x```")
  = {| code := units "console.log(1)" |}.
Proof.
  apply (formatResponse_block_only (units "Sure: ") jsBlock
           (units " Enjoy ```x```") 99%N (units "onsole.log(1)" ++ [newline])).
  - reflexivity.
  - reflexivity.
Defined.

(** X4: the regular expression of [formatResponse] finds a match exactly
    in the texts that hold two triple-backtick markers one after the
    other. *)
Theorem codeBlockRegex_matches_iff (s : jsstring) :
  regexMatch codeBlockRegex s <> None
  <-> exists pre mid post, s = pre ++ fence ++ mid ++ fence ++ post.
Proof.
  rewrite regexMatch_codeBlock. split.
  - destruct (fencedInterior s) as [i|] eqn:E; [|congruence]. intros _.
    destruct (fencedInterior_block s i E) as [pre [tag [nl [post [-> _]]]]].
    exists pre, (tag ++ nl ++ i), post. now rewrite <- !app_assoc.
  - intros [pre [mid [post ->]]]. apply fencedInterior_complete.
Qed.

(** X5: what the regular expression captures lies between the first
    marker of the text, a run of word characters and at most one newline
    on one side, and the next marker on the other; it holds no marker. *)
Theorem codeBlockRegex_capture (s i : jsstring) :
  regexMatch codeBlockRegex s = Some i ->
  exists pre tag nl post,
    s = pre ++ fence ++ tag ++ nl ++ i ++ fence ++ post
    /\ includes fence pre = false
    /\ forallb is_word tag = true
    /\ (nl = [] \/ nl = [newline])
    /\ includes fence i = false.
Proof. rewrite regexMatch_codeBlock. apply fencedInterior_block. Qed.

Lemma codeBlockRegex_capture_witness :
  exists pre tag nl post,
    jsBlock = pre ++ fence ++ tag ++ nl
              ++ (units "console.log(1)" ++ [newline]) ++ fence ++ post
    /\ includes fence pre = false
    /\ forallb is_word tag = true
    /\ (nl = [] \/ nl = [newline])
    /\ includes fence (units "console.log(1)" ++ [newline]) = false.
Proof.
  apply (codeBlockRegex_capture jsBlock (units "console.log(1)" ++ [newline])).
  reflexivity.
Defined.

(** X6: [replace(/```/g, '')] takes out backticks only, every other unit
    stays in place; what it returns holds no marker, so a second pass
    changes nothing. *)
Theorem stripFences_only_backticks (s : jsstring) :
  filter (fun c => negb (isTick c)) (stripFences s)
  = filter (fun c => negb (isTick c)) s
  /\ Subseq (stripFences s) s
  /\ includes fence (stripFences s) = false
  /\ stripFences (stripFences s) = stripFences s.
Proof.
  split; [|split; [apply Subseq_stripFences|split]].
  - induction s as [| r IH | a r Hhead IH] using fence_scan_ind.
    + reflexivity.
    + rewrite stripFences_fence, IH. reflexivity.
    + rewrite (stripFences_step _ _ Hhead). cbn [filter]. now rewrite IH.
  - apply stripFences_clean.
  - apply stripFences_id, stripFences_clean.
Qed.

End NormalizerMore.

(* ================================================================== *)
(** ** The pool as the process reads it from the environment *)
(* ================================================================== *)

Section StartupFacts.

Lemma split_nonempty (sep : N) (s : jsstring) : split sep s <> [].
Proof.
  destruct s as [|c r]; cbn [split]; [discriminate|].
  destruct (c =? sep)%N; [discriminate|].
  destruct (split sep r); discriminate.
Qed.

(** Joining the pieces with the separator gives the text back. *)
Lemma join_split (sep : N) (s : jsstring) : join sep (split sep s) = s.
Proof.
  induction s as [|c r IH]; [reflexivity|].
  cbn [split]. pose proof (split_nonempty sep r) as Hne.
  destruct (N.eqb_spec c sep) as [->|Hc].
  - destruct (split sep r) as [|q qs]; [congruence|].
    change (join sep ([] :: q :: qs)) with (sep :: join sep (q :: qs)).
    now rewrite IH.
  - destruct (split sep r) as [|q qs]; [congruence|].
    destruct qs as [|q' qs]; cbn [join app] in IH |- *; now rewrite IH.
Qed.

Lemma split_no_sep (sep : N) (s p : jsstring) :
  In p (split sep s) -> ~ In sep p.
Proof.
  revert p. induction s as [|c r IH]; intros p; cbn [split].
  - intros [<-|[]] [].
  - pose proof (split_nonempty sep r) as Hne.
    destruct (N.eqb_spec c sep) as [->|Hc].
    + intros [<-|H]; [intros [] | now apply IH].
    + destruct (split sep r) as [|q qs]; [congruence|].
      intros [<-|H].
      * intros [E|E]; [congruence|]. apply (IH q); [now left | exact E].
      * apply IH. now right.
Qed.

Lemma In_join_Infix (sep : N) (l : list jsstring) (p : jsstring) :
  In p l -> Infix p (join sep l).
Proof.
  induction l as [|x l IH]; [intros []|].
  intros [->|H].
  - destruct l as [|y l]; cbn [join].
    + exists [], []. now rewrite app_nil_r.
    + now exists [], (sep :: join sep (y :: l)).
  - destruct l as [|y l]; [destruct H|].
    change (join sep (x :: y :: l)) with (x ++ sep :: join sep (y :: l)).
    destruct (IH H) as [a [b E]]. exists (x ++ sep :: a), b.
    rewrite E, <- app_assoc. reflexivity.
Qed.

Lemma split_app (sep : N) (a b : jsstring) :
  split sep (a ++ sep :: b) = split sep a ++ split sep b.
Proof.
  induction a as [|c a IH]; cbn [app split].
  - now rewrite N.eqb_refl.
  - destruct (c =? sep)%N; [now rewrite IH|].
    rewrite IH. pose proof (split_nonempty sep a) as Hne.
    destruct (split sep a) as [|q qs]; [congruence | reflexivity].
Qed.

Lemma dropWhile_nil (p : N -> bool) (s : jsstring) :
  dropWhile p s = [] <-> forallb p s = true.
Proof.
  induction s as [|c r IH]; cbn [dropWhile forallb]; [tauto|].
  destruct (p c); cbn [andb]; [exact IH | split; discriminate].
Qed.

(** Trimming leaves nothing exactly when the text is all whitespace. *)
Lemma trim_nil_iff (s : jsstring) : trim s = [] <-> forallb is_ws s = true.
Proof.
  unfold trim, trimEnd, trimStart. split.
  - intros H. apply (f_equal (@rev N)) in H. rewrite rev_involutive in H.
    cbn [rev] in H. apply dropWhile_nil in H.
    pose proof (dropWhile_head is_ws s) as Hh.
    destruct (dropWhile is_ws s) as [|c t] eqn:E; [now apply dropWhile_nil|].
    rewrite forallb_forall in H.
    rewrite (H c) in Hh; [discriminate|]. apply in_rev. rewrite rev_involutive.
    now left.
  - intros H. apply dropWhile_nil in H. now rewrite H.
Qed.

Lemma parseKeys_In (envKeys k : jsstring) :
  In k (parseKeys envKeys)
  <-> truthy k = true /\ exists p, In p (split 44 envKeys) /\ k = trim p.
Proof.
  unfold parseKeys. rewrite filter_In, in_map_iff. split.
  - intros [[p [E H]] T]. split; [exact T|]. now exists p.
  - intros [T [p [H E]]]. split; [now exists p | exact T].
Qed.

(** X7: every key of the pool read from the environment is a piece of the
    configured value: it is not empty, has no whitespace at either end
    and holds no comma. *)
Theorem parseKeys_wellformed (envKeys k : jsstring) :
  In k (parseKeys envKeys) ->
  k <> [] /\ trimmed k /\ ~ In 44%N k /\ Infix k envKeys.
Proof.
  intros H. apply parseKeys_In in H. destruct H as [T [p [Hp ->]]].
  assert (Hi : Infix (trim p) p) by apply trim_Infix.
  split; [|split; [|split]].
  - intros E. rewrite E in T. discriminate T.
  - apply trim_trimmed.
  - intros Hc. apply (split_no_sep 44 envKeys p Hp).
    destruct Hi as [a [b ->]]. apply in_or_app. right.
    apply in_or_app. now left.
  - eapply Infix_trans; [exact Hi|].
    pose proof (In_join_Infix 44 _ p Hp) as J.
    now rewrite join_split in J.
Qed.

Lemma parseKeys_wellformed_witness :
  In keyTwo (parseKeys (units " key-1 ,, key-2 "))
  /\ keyTwo <> [] /\ trimmed keyTwo /\ ~ In 44%N keyTwo
  /\ Infix keyTwo (units " key-1 ,, key-2 ").
Proof.
  assert (H : In keyTwo (parseKeys (units " key-1 ,, key-2 ")))
    by (vm_compute; right; left; reflexivity).
  split; [exact H|].
  exact (parseKeys_wellformed (units " key-1 ,, key-2 ") keyTwo H).
Defined.

(** X8: the pool keeps the order of the configured value: the keys of
    [a,b] are the keys of [a] followed by the keys of [b]. *)
Theorem parseKeys_comma (a b : jsstring) :
  parseKeys (a ++ 44%N :: b) = parseKeys a ++ parseKeys b.
Proof.
  unfold parseKeys. now rewrite split_app, map_app, filter_app.
Qed.

(** A blank value gives no key. *)
Lemma blank_parseKeys (envKeys : jsstring) :
  blank envKeys = true -> parseKeys envKeys = [].
Proof.
  unfold parseKeys, blank.
  induction envKeys as [|c r IH]; [reflexivity|].
  cbn [split forallb]. intros H. apply andb_true_iff in H.
  destruct H as [Hc Hr]. specialize (IH Hr).
  pose proof (split_nonempty 44 r) as Hne.
  destruct (N.eqb_spec c 44) as [->|Hn]; [exact IH|].
  rewrite orb_false_r in Hc.
  destruct (split 44 r) as [|q qs]; [congruence|].
  cbn [map filter] in IH |- *.
  destruct (trim q) as [|y u] eqn:Eq; [|discriminate IH].
  apply trim_nil_iff in Eq.
  assert (E : trim (c :: q) = []).
  { apply trim_nil_iff. cbn [forallb]. now rewrite Hc, Eq. }
  rewrite E. exact IH.
Qed.

(** X9: the pool is empty exactly when the configured value holds nothing
    but commas and whitespace. *)
Theorem parseKeys_empty_iff (envKeys : jsstring) :
  parseKeys envKeys = [] <-> blank envKeys = true.
Proof.
  unfold parseKeys, blank.
  induction envKeys as [|c r IH]; [split; reflexivity|].
  cbn [split forallb]. pose proof (split_nonempty 44 r) as Hne.
  destruct (N.eqb_spec c 44) as [->|Hc].
  - cbn [map filter].
    replace (truthy (trim [])) with false by reflexivity.
    rewrite IH. rewrite orb_true_r. reflexivity.
  - rewrite orb_false_r.
    destruct (split 44 r) as [|q qs]; [congruence|].
    cbn [map filter] in IH |- *.
    destruct (trim (c :: q)) as [|x t] eqn:Ec; cbn [truthy].
    + apply trim_nil_iff in Ec. cbn [forallb] in Ec.
      apply andb_true_iff in Ec. destruct Ec as [Hw Hq].
      apply trim_nil_iff in Hq. rewrite Hq in IH. cbn [truthy] in IH.
      rewrite Hw. exact IH.
    + split; [discriminate|]. intros H.
      apply andb_true_iff in H. destruct H as [Hw Hr].
      assert (Hq : forallb is_ws q = true).
      { apply IH in Hr. destruct (trim q) as [|y u] eqn:Eq;
          [now apply trim_nil_iff | discriminate Hr]. }
      assert (E : trim (c :: q) = []).
      { apply trim_nil_iff. cbn [forallb]. now rewrite Hw, Hq. }
      congruence.
Qed.

(** X10: when the chosen environment value holds nothing but commas and
    whitespace, every request that has a query is answered 500 with
    "Server config error: No API keys."; no key is taken and the cursor
    stays where it was.  A GEMINI_API_KEYS that is blank but not empty is
    such a value: it hides GEMINI_API_KEY. *)
Theorem handler_unconfigured (plural singular : option jsstring)
  (backend : nat -> jsstring -> jsstring -> outcome)
  (q : jsstring) (st : state) :
  blank (envKeys plural singular) = true ->
  truthy q = true ->
  handler (parseKeys (envKeys plural singular)) backend (Some q) st
  = (inl {| status := 500;
            body := ErrorBody (units "Server config error: No API keys.")
                              None |},
     {| currentKeyIndex := currentKeyIndex st;
        trace := trace st ++ [Log INFO "REQUEST"; Log ERROR "CONFIG_ERROR"] |}).
Proof.
  intros Hb Hq. rewrite (blank_parseKeys _ Hb).
  destruct q as [|x xs]; [discriminate Hq|].
  cbv [handler tryCatch bind emit ret missing length Nat.eqb].
  cbn [trace currentKeyIndex]. now rewrite <- app_assoc.
Qed.

Lemma handler_unconfigured_witness :
  handler (parseKeys (envKeys (Some (units " , ")) (Some keyOne)))
    quotaAlways (Some (units "hi")) initial
  = (inl {| status := 500;
            body := ErrorBody (units "Server config error: No API keys.")
                              None |},
     {| currentKeyIndex := Num 0;
        trace := [] ++ [Log INFO "REQUEST"; Log ERROR "CONFIG_ERROR"] |}).
Proof.
  apply (handler_unconfigured (Some (units " , ")) (Some keyOne) quotaAlways
           (units "hi") initial).
  - reflexivity.
  - reflexivity.
Defined.

End StartupFacts.

(* ================================================================== *)
(** ** More on the pool *)
(* ================================================================== *)

Section PoolMore.

Lemma getModel_nil (st : state) :
  getModel [] st
  = (inr (newError (units "No available API keys.")),
     {| currentKeyIndex := NaN; trace := trace st |}).
Proof.
  unfold getModel, bind, readIndex, writeIndex, throw.
  destruct (currentKeyIndex st) as [n|]; cbn [succMod keyAt length Nat.eqb].
  - now destruct n.
  - reflexivity.
Qed.

(** X11: with an empty pool every [getModel] throws "No available API
    keys.", whatever the cursor; no client is made, and the cursor is
    [NaN] from the first call on. *)
Theorem empty_pool_always_throws (n : nat) (st : state) :
  fst (getModels [] n st)
  = repeat (inr (newError (units "No available API keys."))) n
  /\ trace (snd (getModels [] n st)) = trace st
  /\ currentKeyIndex (snd (getModels [] (S n) st)) = NaN.
Proof.
  assert (G : forall n st,
            getModels [] n st
            = (repeat (inr (newError (units "No available API keys."))) n,
               match n with
               | O => st
               | S _ => {| currentKeyIndex := NaN; trace := trace st |}
               end)).
  { clear. induction n as [|n IH]; intros st; [reflexivity|].
    cbn [getModels]. rewrite getModel_nil, IH. cbn [repeat].
    now destruct n. }
  rewrite !G. cbn [fst snd]. split; [reflexivity|].
  split; [now destruct n | reflexivity].
Qed.

Variable apiKeys : list jsstring.
Hypothesis pool_nonempty : 0 < length apiKeys.
Hypothesis pool_truthy : allTruthy apiKeys.

(** X12: right after a session is made, the index the retry branch logs
    as "the key we JUST used" is the index of that session's key. *)
Theorem usedKeyIndex_names_session (st : state) (c : nat) :
  currentKeyIndex st = Num c ->
  c < length apiKeys ->
  exists sess st',
    createChatSession apiKeys st = (inl sess, st')
    /\ usedKeyIndex apiKeys (currentKeyIndex st') = Num c
    /\ nth_error apiKeys c = Some (sessionKey sess).
Proof.
  intros Hc Hlt.
  assert (Hp : currentKeyIndex st = Num (c mod length apiKeys))
    by now rewrite Nat.mod_small.
  rewrite (createChatSession_run apiKeys pool_nonempty pool_truthy st c Hp).
  eexists. eexists. split; [reflexivity|]. cbn [currentKeyIndex sessionKey].
  split.
  - unfold usedKeyIndex.
    destruct (Nat.eqb_spec (length apiKeys) 0) as [E|_]; [lia|].
    f_equal. rewrite Z.rem_mod_nonneg by lia.
    destruct (Nat.eq_dec (c + 1) (length apiKeys)) as [E|E].
    + rewrite E, Nat.Div0.mod_same. rewrite Z.mod_small by lia. lia.
    + rewrite Nat.mod_small by lia.
      replace (Z.of_nat (c + 1) - 1 + Z.of_nat (length apiKeys))%Z
        with (Z.of_nat c + 1 * Z.of_nat (length apiKeys))%Z by lia.
      rewrite Z_mod_plus_full, Z.mod_small by lia. lia.
  - rewrite <- (Nat.mod_small c (length apiKeys)) at 1 by exact Hlt.
    apply keyOf_lookup. exact pool_nonempty.
Qed.

End PoolMore.

Lemma usedKeyIndex_names_session_witness :
  exists sess st',
    createChatSession twoKeys {| currentKeyIndex := Num 1; trace := [] |}
    = (inl sess, st')
    /\ usedKeyIndex twoKeys (currentKeyIndex st') = Num 1
    /\ nth_error twoKeys 1 = Some (sessionKey sess).
Proof.
  apply (usedKeyIndex_names_session twoKeys ltac:(simpl; lia) twoKeys_truthy
           {| currentKeyIndex := Num 1; trace := [] |} 1).
  - reflexivity.
  - simpl; lia.
Defined.

(* ================================================================== *)
(** ** More on the endpoint: any pool, any backend *)
(* ================================================================== *)

Section HandlerAlways.

Variable apiKeys : list jsstring.
Variable backend : nat -> jsstring -> jsstring -> outcome.

Lemma retryLoop_returns_wellFormed (q : jsstring) (rem : nat) :
  forall att sess le st r st',
    retryLoop apiKeys backend q rem att sess le st = (inl (Returned r), st') ->
    wellFormed r.
Proof.
  induction rem as [|rem IH]; intros att sess le st r st'.
  - discriminate.
  - cbn [retryLoop]. cbv [bind sendMessage emit ret throw].
    destruct (backend att (sessionKey sess) q) as [text|err].
    + intros H. injection H as <- _. unfold wellFormed. cbn [body status].
      split; [reflexivity|].
      split; [apply formatResponse_clean | apply formatResponse_trimmed].
    + destruct (isQuotaError (messageOr err)
                || isServiceOverloaded (messageOr err)); [|discriminate].
      destruct (isServiceOverloaded (messageOr err));
        match goal with
        | |- context [createChatSession apiKeys ?s] =>
            destruct (createChatSession apiKeys s) as [[s'|e'] st1]
        end; try discriminate; apply IH.
Qed.

(** X13: the endpoint answers every request: nothing thrown on the way
    gets past it.  The answer is 200 with a [code] that holds no marker
    and no whitespace at its ends, or 400 or 500 with an error envelope;
    this for any pool, backend, query and state. *)
Theorem handler_always_responds (query : option jsstring) (st : state) :
  exists r st',
    handler apiKeys backend query st = (inl r, st') /\ wellFormed r.
Proof.
  cbv [handler tryCatch bind emit ret throw].
  destruct (missing query).
  { eexists. eexists. split; [reflexivity | now left]. }
  destruct (length apiKeys =? 0)%nat.
  { eexists. eexists. split; [reflexivity | now right]. }
  match goal with
  | |- context [createChatSession apiKeys ?s] =>
      destruct (createChatSession apiKeys s) as [[sess|e] st1]
  end.
  - match goal with
    | |- context [retryLoop apiKeys backend ?q ?n ?a ?s ?l ?t] =>
        destruct (retryLoop apiKeys backend q n a s l t)
          as [[[r|le]|e] st2] eqn:E
    end.
    + eexists. eexists. split; [reflexivity|].
      eapply retryLoop_returns_wellFormed, E.
    + eexists. eexists. split; [reflexivity | now right].
    + eexists. eexists. split; [reflexivity | now right].
  - eexists. eexists. split; [reflexivity | now right].
Qed.

End HandlerAlways.

Section HandlerBounds.

Variable apiKeys : list jsstring.
Variable backend : nat -> jsstring -> jsstring -> outcome.

Ltac tally :=
  cbn [sentKeys sessionKeys clientKeys pauseTotal flat_map app list_sum
         fold_right length Nat.add].

Lemma clientKeys_app (a b : list event) :
  clientKeys (a ++ b) = clientKeys a ++ clientKeys b.
Proof. apply flat_map_app. Qed.

Lemma pauseTotal_app (a b : list event) :
  pauseTotal (a ++ b) = pauseTotal a + pauseTotal b.
Proof. unfold pauseTotal. now rewrite flat_map_app, list_sum_app. Qed.

Lemma carries_app (q : jsstring) (a b : list event) :
  carries apiKeys q a -> carries apiKeys q b -> carries apiKeys q (a ++ b).
Proof. unfold carries. intros Ha Hb. apply Forall_app. now split. Qed.

(** A session is made on a key of the pool, or not at all. *)
Lemma createChatSession_trace (st : state) :
  (exists e st', createChatSession apiKeys st = (inr e, st')
                 /\ trace st' = trace st)
  \/ (exists k st', In k apiKeys
                    /\ createChatSession apiKeys st
                       = (inl {| sessionKey := k |}, st')
                    /\ trace st' = trace st ++ [NewClient k; StartChat k]).
Proof.
  unfold createChatSession, getModel, bind, readIndex, writeIndex, emit, ret,
    throw.
  destruct (keyAt apiKeys (currentKeyIndex st)) as [[|x k]|] eqn:E.
  - left. eexists. eexists. split; reflexivity.
  - right. exists (x :: k). eexists. split; [|split; [reflexivity|]].
    + destruct (currentKeyIndex st) as [n|]; [|discriminate E].
      cbn [keyAt] in E. now apply nth_error_In in E.
    + cbn [trace]. now rewrite <- app_assoc.
  - left. eexists. eexists. split; reflexivity.
Qed.

(** What the loop adds to the trace, whatever the backend does. *)
Lemma retryLoop_bounds (q : jsstring) (rem : nat) :
  forall att sess le st,
    In (sessionKey sess) apiKeys ->
    exists evs,
      trace (snd (retryLoop apiKeys backend q rem att sess le st))
      = trace st ++ evs
      /\ length (sentKeys evs) <= rem
      /\ carries apiKeys q evs
      /\ pauseTotal evs <= 1000 * length (sentKeys evs)
      /\ length (sessionKeys evs) <= length (sentKeys evs)
      /\ clientKeys evs = sessionKeys evs.
Proof.
  induction rem as [|rem IH]; intros att sess le st Hin.
  - exists []. cbn [retryLoop]. unfold ret. cbn [snd].
    rewrite app_nil_r. repeat split; try constructor.
  - cbn [retryLoop]. cbv [bind sendMessage emit ret throw].
    destruct (backend att (sessionKey sess) q) as [text|err].
    + exists [SendMessage (sessionKey sess) q; Log INFO "AI_RAW_RESPONSE";
              Log INFO "RESPONSE_SENT"].
      cbn [snd trace]. rewrite <- !app_assoc.
      split; [reflexivity|]. split; [tally; lia|].
      split; [repeat constructor; assumption|].
      split; [tally; lia|]. split; [tally; lia | reflexivity].
    + destruct (isQuotaError (messageOr err)
                || isServiceOverloaded (messageOr err)).
      * set (pause := if isServiceOverloaded (messageOr err)
                      then [Sleep 1000] else []).
        set (pre := [SendMessage (sessionKey sess) q;
                     Log WARN (retryLogType (messageOr err))] ++ pause).
        assert (Hpre : sentKeys pre = [sessionKey sess]
                       /\ sessionKeys pre = [] /\ clientKeys pre = []
                       /\ pauseTotal pre <= 1000
                       /\ carries apiKeys q pre).
        { unfold pre, pause.
          destruct (isServiceOverloaded (messageOr err));
            repeat split; try (tally; lia);
            repeat constructor; assumption. }
        destruct Hpre as [P1 [P2 [P3 [P4 P5]]]].
        assert (Hst : forall s : state,
                  trace s = trace st ++ pre ->
                  exists evs,
                    trace (snd
                      (let (s0, st') := createChatSession apiKeys s in
                       match s0 with
                       | inl a =>
                           retryLoop apiKeys backend q rem (S att) a
                             (Some err) st'
                       | inr e => (inr e, st')
                       end)) = trace st ++ evs
                    /\ length (sentKeys evs) <= S rem
                    /\ carries apiKeys q evs
                    /\ pauseTotal evs <= 1000 * length (sentKeys evs)
                    /\ length (sessionKeys evs) <= length (sentKeys evs)
                    /\ clientKeys evs = sessionKeys evs).
        { intros s Hs.
          destruct (createChatSession_trace s)
            as [[e [st1 [E T]]] | [k [st1 [Hk [E T]]]]]; rewrite E.
          - exists pre. cbn [snd]. rewrite T, Hs.
            split; [reflexivity|]. rewrite P1, P2, P3.
            repeat split; try (tally; lia); assumption.
          - destruct (IH (S att) {| sessionKey := k |} (Some err) st1 Hk)
              as [evs [H1 [H2 [H3 [H4 [H5 H6]]]]]].
            exists (pre ++ [NewClient k; StartChat k] ++ evs).
            rewrite H1, T, Hs, <- !app_assoc.
            split; [reflexivity|].
            rewrite !sentKeys_app, !sessionKeys_app, !clientKeys_app,
              !pauseTotal_app, P1, P2, P3, H6.
            cbn [sentKeys sessionKeys clientKeys pauseTotal flat_map app
                   list_sum length].
            fold (sentKeys evs). fold (sessionKeys evs). fold (pauseTotal evs).
            change (pauseTotal [NewClient k; StartChat k]) with 0.
            split; [lia|].
            split; [apply carries_app; [exact P5|];
                    repeat (constructor; [exact I|]); exact H3|].
            split; [lia|]. split; [lia | reflexivity]. }
        unfold pre, pause in Hst.
        destruct (isServiceOverloaded (messageOr err)); apply Hst;
          cbn [trace]; now rewrite <- !app_assoc.
      * exists [SendMessage (sessionKey sess) q; Log ERROR "API_ATTEMPT_ERROR"].
        cbn [snd trace]. rewrite <- !app_assoc.
        split; [reflexivity|]. split; [tally; lia|].
        split; [repeat constructor; assumption|].
        split; [tally; lia|]. split; [tally; lia | reflexivity].
Qed.

(** X14: whatever the backend does, a request only adds to the trace,
    and what it adds is bounded: at most twice as many messages as the
    pool has keys, each carrying the query of the request on a key of the
    pool; at most one second of pause per message; at most one session
    more than messages, each on a client made for it. *)
Theorem handler_bounds (query : option jsstring) (st : state) :
  exists evs,
    trace (snd (handler apiKeys backend query st)) = trace st ++ evs
    /\ length (sentKeys evs) <= 2 * length apiKeys
    /\ carries apiKeys (match query with Some q => q | None => [] end) evs
    /\ pauseTotal evs <= 1000 * length (sentKeys evs)
    /\ length (sessionKeys evs) <= length (sentKeys evs) + 1
    /\ clientKeys evs = sessionKeys evs.
Proof.
  cbv [handler tryCatch bind emit ret throw].
  destruct (missing query).
  { exists [Log INFO "REQUEST"; Log WARN "BAD_REQUEST"].
    cbn [snd trace]. rewrite <- !app_assoc.
    repeat split; try (tally; lia); repeat constructor. }
  destruct (length apiKeys =? 0)%nat.
  { exists [Log INFO "REQUEST"; Log ERROR "CONFIG_ERROR"].
    cbn [snd trace]. rewrite <- !app_assoc.
    repeat split; try (tally; lia); repeat constructor. }
  match goal with
  | |- context [createChatSession apiKeys ?s] =>
      destruct (createChatSession_trace s)
        as [[e [st1 [E T]]] | [k [st1 [Hk [E T]]]]]; rewrite E
  end.
  - exists [Log INFO "REQUEST"; Log ERROR "CRITICAL_SERVER_ERROR"].
    cbn [snd trace] in T |- *. rewrite T, <- !app_assoc.
    repeat split; try (tally; lia); repeat constructor.
  - set (q := match query with Some q => q | None => [] end).
    destruct (retryLoop_bounds q (MAX_RETRIES apiKeys) 0
                {| sessionKey := k |} None st1 Hk)
      as [evs [H1 [H2 [H3 [H4 [H5 H6]]]]]].
    unfold MAX_RETRIES in H2.
    cbn [trace] in T.
    assert (Hlog : forall tail,
              (tail = [] \/ tail = [Log ERROR "CRITICAL_SERVER_ERROR"]) ->
              let evs' := [Log INFO "REQUEST"; NewClient k; StartChat k]
                          ++ evs ++ tail in
              trace st1 ++ evs ++ tail = trace st ++ evs'
              /\ length (sentKeys evs') <= 2 * length apiKeys
              /\ carries apiKeys q evs'
              /\ pauseTotal evs' <= 1000 * length (sentKeys evs')
              /\ length (sessionKeys evs') <= length (sentKeys evs') + 1
              /\ clientKeys evs' = sessionKeys evs').
    { intros tail Htail evs'. unfold evs'.
      rewrite T, <- !app_assoc.
      split; [reflexivity|].
      rewrite !sentKeys_app, !sessionKeys_app, !clientKeys_app,
        !pauseTotal_app, H6.
      assert (Ht : sentKeys tail = [] /\ sessionKeys tail = []
                   /\ clientKeys tail = [] /\ pauseTotal tail = 0
                   /\ carries apiKeys q tail).
      { destruct Htail as [-> | ->]; repeat split; repeat constructor. }
      destruct Ht as [T1 [T2 [T3 [T4 T5]]]]. rewrite T1, T2, T3, T4.
      cbn [sentKeys sessionKeys clientKeys pauseTotal flat_map app
             list_sum length].
      rewrite !app_nil_r.
      change (pauseTotal [Log INFO "REQUEST"; NewClient k; StartChat k])
        with 0.
      split; [lia|].
      split; [repeat (constructor; [exact I|]); now apply carries_app|].
      split; [lia|]. split; [lia | reflexivity]. }
    destruct (retryLoop apiKeys backend q (MAX_RETRIES apiKeys) 0
                {| sessionKey := k |} None st1) as [[[r|le']|e] st2];
      cbn [snd trace] in H1 |- *.
    + exists ([Log INFO "REQUEST"; NewClient k; StartChat k] ++ evs).
      pose proof (Hlog [] (or_introl eq_refl)) as L. cbv zeta in L.
      rewrite !app_nil_r in L. rewrite H1. exact L.
    + exists ([Log INFO "REQUEST"; NewClient k; StartChat k] ++ evs
              ++ [Log ERROR "CRITICAL_SERVER_ERROR"]).
      rewrite H1, <- app_assoc. exact (Hlog _ (or_intror eq_refl)).
    + exists ([Log INFO "REQUEST"; NewClient k; StartChat k] ++ evs
              ++ [Log ERROR "CRITICAL_SERVER_ERROR"]).
      rewrite H1, <- app_assoc. exact (Hlog _ (or_intror eq_refl)).
Qed.

End HandlerBounds.

(* ================================================================== *)
(** ** More on the endpoint: how a request ends *)
(* ================================================================== *)

Section HandlerOutcomes.

Variable apiKeys : list jsstring.
Variable backend : nat -> jsstring -> jsstring -> outcome.
Hypothesis pool_nonempty : 0 < length apiKeys.
Hypothesis pool_truthy : allTruthy apiKeys.

Let size := length apiKeys.

(** An answer: out of the loop at once, with the normalized text. *)
Lemma retryLoop_success (q : jsstring) (rem att : nat) (sess : Session)
  (le : option Err) (st : state) (text : jsstring) :
  backend att (sessionKey sess) q = Success text ->
  retryLoop apiKeys backend q (S rem) att sess le st
  = (inl (Returned (okResponse text)),
     {| currentKeyIndex := currentKeyIndex st;
        trace := trace st ++ [SendMessage (sessionKey sess) q;
                              Log INFO "AI_RAW_RESPONSE";
                              Log INFO "RESPONSE_SENT"] |}).
Proof.
  intros Hb. cbn [retryLoop]. cbv [bind sendMessage emit ret].
  rewrite Hb. cbn [trace currentKeyIndex]. now rewrite <- !app_assoc.
Qed.

Lemma pauseTotal_retryEvents (k q : jsstring) (e : Err) (k' : jsstring) :
  pauseTotal (retryEvents k q e k') = pauseOf (Failure e).
Proof.
  unfold retryEvents, pauseOf.
  now destruct (isServiceOverloaded (messageOr e)).
Qed.

(** [k] retried attempts, with the pauses they take. *)
Lemma retryLoop_retries_pause (q : jsstring) (k : nat) :
  forall (rem att p : nat) (le : option Err) (st : state),
    currentKeyIndex st = Num ((p + 1) mod size) ->
    (forall i, i < k ->
       exists e, backend (att + i) (keyOf apiKeys (p + i)) q = Failure e
                 /\ classify (messageOr e) <> FatalFailure) ->
    exists evs le',
      retryLoop apiKeys backend q (k + rem) att
        {| sessionKey := keyOf apiKeys p |} le st
      = retryLoop apiKeys backend q rem (att + k)
          {| sessionKey := keyOf apiKeys (p + k) |} le'
          {| currentKeyIndex := Num ((p + k + 1) mod size);
             trace := trace st ++ evs |}
      /\ sentKeys evs = map (keyOf apiKeys) (seq p k)
      /\ sessionKeys evs = map (keyOf apiKeys) (seq (p + 1) k)
      /\ pauseTotal evs
         = list_sum (map (fun i => pauseOf (backend (att + i)
                                              (keyOf apiKeys (p + i)) q))
                         (seq 0 k)).
Proof.
  induction k as [|k IH]; intros rem att p le st Hc H.
  - exists [], le. rewrite !Nat.add_0_r, app_nil_r, <- Hc.
    repeat split. now destruct st.
  - destruct (H 0 ltac:(lia)) as [e [Hb Hr]].
    rewrite !Nat.add_0_r in Hb.
    cbn [Nat.add].
    rewrite (retryLoop_retry apiKeys backend pool_nonempty pool_truthy
               q (k + rem) att p
               {| sessionKey := keyOf apiKeys p |} le st e Hc Hb Hr).
    cbn [sessionKey].
    edestruct (IH rem (S att) (p + 1) (Some e)) as [evs [le' [E [S1 [S2 P]]]]];
      [ | | rewrite E ].
    + cbn [currentKeyIndex]. reflexivity.
    + intros i Hi. destruct (H (S i) ltac:(lia)) as [e' He'].
      exists e'. now replace (S att + i) with (att + S i) by lia;
        replace (p + 1 + i) with (p + S i) by lia.
    + exists (retryEvents (keyOf apiKeys p) q e (keyOf apiKeys (p + 1)) ++ evs),
        le'.
      cbn [trace]. rewrite <- app_assoc.
      replace (S att + k) with (att + S k) by lia.
      replace (p + 1 + k) with (p + S k) by lia.
      split; [reflexivity|].
      rewrite sentKeys_app, sessionKeys_app, sentKeys_retryEvents,
        sessionKeys_retryEvents, S1, S2.
      rewrite pauseTotal_app, pauseTotal_retryEvents, P.
      replace (p + 1 + 1) with (S (p + 1)) by lia.
      replace (p + 1) with (S p) by lia.
      split; [reflexivity|]. split; [reflexivity|].
      cbn [seq map list_sum fold_right]. rewrite !Nat.add_0_r, Hb.
      f_equal. rewrite <- seq_shift, map_map. unfold list_sum. f_equal.
      apply map_ext. intros i.
      now replace (S att + i) with (att + S i) by lia;
        replace (S p + i) with (p + S i) by lia.
Qed.

(** The request as far as its first [k] attempts, all retried. *)
Lemma handler_retried_run (q : jsstring) (st : state) (c k : nat) :
  truthy q = true ->
  currentKeyIndex st = Num c ->
  c < size ->
  k <= 2 * size ->
  (forall i, i < k -> retriedAt apiKeys backend q c i) ->
  exists evs le',
    retryLoop apiKeys backend q (MAX_RETRIES apiKeys) 0
      {| sessionKey := keyOf apiKeys c |} None
      {| currentKeyIndex := Num ((c + 1) mod size);
         trace := trace st ++ [Log INFO "REQUEST";
                               NewClient (keyOf apiKeys c);
                               StartChat (keyOf apiKeys c)] |}
    = retryLoop apiKeys backend q (2 * size - k) k
        {| sessionKey := keyOf apiKeys (c + k) |} le'
        {| currentKeyIndex := Num ((c + k + 1) mod size);
           trace := trace st ++ evs |}
    /\ sentKeys evs = map (keyOf apiKeys) (seq c k)
    /\ sessionKeys evs = map (keyOf apiKeys) (seq c (S k))
    /\ pauseTotal evs
       = list_sum (map (fun i => pauseOf (backend i (keyOf apiKeys (c + i)) q))
                       (seq 0 k)).
Proof.
  intros Hq Hc Hlt Hk H.
  assert (Hmax : MAX_RETRIES apiKeys = k + (2 * size - k))
    by (unfold MAX_RETRIES; fold size; lia).
  rewrite Hmax.
  edestruct (retryLoop_retries_pause q k (2 * size - k) 0 c None)
    as [evs [le' [E [S1 [S2 P]]]]]; [ | | rewrite E ].
  - cbn [currentKeyIndex]. reflexivity.
  - intros i Hi. exact (H i Hi).
  - cbn [Nat.add trace].
    exists ([Log INFO "REQUEST"; NewClient (keyOf apiKeys c);
             StartChat (keyOf apiKeys c)] ++ evs), le'.
    rewrite <- app_assoc. split; [reflexivity|].
    rewrite sentKeys_app, sessionKeys_app, pauseTotal_app, S1, S2, P.
    replace (c + 1) with (S c) by lia.
    repeat split.
Qed.

Lemma handler_success_run (q : jsstring) (st : state) (c k : nat)
  (text : jsstring) :
  truthy q = true ->
  currentKeyIndex st = Num c ->
  c < size ->
  k < 2 * size ->
  (forall i, i < k -> retriedAt apiKeys backend q c i) ->
  backend k (keyOf apiKeys (c + k)) q = Success text ->
  exists evs,
    handler apiKeys backend (Some q) st
    = (inl (okResponse text),
       {| currentKeyIndex := Num ((c + k + 1) mod size);
          trace := trace st ++ evs |})
    /\ sentKeys evs = map (keyOf apiKeys) (seq c (S k))
    /\ sessionKeys evs = map (keyOf apiKeys) (seq c (S k)).
Proof.
  intros Hq Hc Hlt Hk H Hb.
  rewrite (handler_run apiKeys backend pool_nonempty pool_truthy q st c
             Hq Hc Hlt).
  destruct (handler_retried_run q st c k Hq Hc Hlt ltac:(lia) H)
    as [evs [le' [E [S1 [S2 _]]]]].
  fold size. rewrite E.
  replace (2 * size - k) with (S (2 * size - S k)) by lia.
  rewrite (retryLoop_success q _ k
             {| sessionKey := keyOf apiKeys (c + k) |} le' _ text Hb).
  cbn [trace currentKeyIndex sessionKey].
  eexists. split; [|split].
  - rewrite <- !app_assoc. reflexivity.
  - rewrite !sentKeys_app, S1. cbn [sentKeys flat_map app].
    now rewrite seq_S, map_app.
  - rewrite !sessionKeys_app, S2. cbn [sessionKeys flat_map app].
    now rewrite app_nil_r.
Qed.

(** X15: an answer at attempt [k], the attempts before it having been
    retried, ends the request: 200 with the normalized text, after one
    message and one session per attempt made, on the keys round the pool
    from the cursor; the cursor has moved on by as many keys. *)
Theorem handler_answer_ends_request (q : jsstring) (st : state) (c k : nat)
  (text : jsstring) :
  truthy q = true ->
  currentKeyIndex st = Num c ->
  c < length apiKeys ->
  k < 2 * length apiKeys ->
  (forall i, i < k -> retriedAt apiKeys backend q c i) ->
  backend k (keyOf apiKeys (c + k)) q = Success text ->
  exists evs,
    handler apiKeys backend (Some q) st
    = (inl {| status := 200; body := CodeBody (formatResponse text) |},
       {| currentKeyIndex := Num ((c + k + 1) mod length apiKeys);
          trace := trace st ++ evs |})
    /\ sentKeys evs = map (keyOf apiKeys) (seq c (k + 1))
    /\ sessionKeys evs = sentKeys evs.
Proof.
  intros Hq Hc Hlt Hk H Hb.
  destruct (handler_success_run q st c k text Hq Hc Hlt Hk H Hb)
    as [evs [Hh [S1 S2]]].
  exists evs. split; [exact Hh|].
  rewrite S1, S2. now replace (k + 1) with (S k) by lia.
Qed.

(** Either the first [n] attempts are all retried, or one of them is the
    first that is not. *)
Lemma first_stop (q : jsstring) (c n : nat) :
  (forall i, i < n -> retriedAt apiKeys backend q c i)
  \/ (exists k, k < n
                /\ (forall i, i < k -> retriedAt apiKeys backend q c i)
                /\ ~ retriedAt apiKeys backend q c k).
Proof.
  induction n as [|n [IH | [k [Hk [Hpre Hnot]]]]].
  - left. intros i Hi. lia.
  - assert (D : retriedAt apiKeys backend q c n
                \/ ~ retriedAt apiKeys backend q c n).
    { unfold retriedAt.
      destruct (backend n (keyOf apiKeys (c + n)) q) as [text|e].
      - right. intros [e [H _]]. discriminate H.
      - destruct (classify (messageOr e)) eqn:Cl.
        + left. exists e. split; [reflexivity | rewrite Cl; discriminate].
        + left. exists e. split; [reflexivity | rewrite Cl; discriminate].
        + right. intros [e' [H Hr]]. injection H as <-. contradiction. }
    destruct D as [D|D].
    + left. intros i Hi. destruct (Nat.eq_dec i n) as [->|]; [exact D|].
      apply IH. lia.
    + right. exists n. split; [lia|]. split; [exact IH | exact D].
  - right. exists k. split; [lia|]. split; assumption.
Qed.

(** X16: a request with a query, on a pool that has keys, ends in one of
    three ways and no other: the first attempt that is not a retryable
    failure is an answer, and the response is 200 with its normalized
    text; or it is a fatal failure, and the response is 500 with its
    message; or there is no such attempt among the first 2 x poolSize,
    and the response is 500 with the retry-exhausted message.  In each
    case the attempts before are all retried and one message is sent per
    attempt. *)
Theorem handler_outcomes (q : jsstring) (st : state) (c : nat) :
  truthy q = true ->
  currentKeyIndex st = Num c ->
  c < length apiKeys ->
  (exists k text evs,
     k < 2 * length apiKeys
     /\ (forall i, i < k -> retriedAt apiKeys backend q c i)
     /\ backend k (keyOf apiKeys (c + k)) q = Success text
     /\ handler apiKeys backend (Some q) st
        = (inl (okResponse text),
           {| currentKeyIndex := Num ((c + k + 1) mod length apiKeys);
              trace := trace st ++ evs |})
     /\ length (sentKeys evs) = k + 1)
  \/ (exists k e evs,
        k < 2 * length apiKeys
        /\ (forall i, i < k -> retriedAt apiKeys backend q c i)
        /\ backend k (keyOf apiKeys (c + k)) q = Failure e
        /\ classify (messageOr e) = FatalFailure
        /\ handler apiKeys backend (Some q) st
           = (inl (internalError (message e)),
              {| currentKeyIndex := Num ((c + k + 1) mod length apiKeys);
                 trace := trace st ++ evs |})
        /\ length (sentKeys evs) = k + 1)
  \/ (exists e evs,
        (forall i, i < 2 * length apiKeys -> retriedAt apiKeys backend q c i)
        /\ backend (2 * length apiKeys - 1)
                   (keyOf apiKeys (c + (2 * length apiKeys - 1))) q = Failure e
        /\ handler apiKeys backend (Some q) st
           = (inl (internalError
                     (Some (units "Failed after "
                            ++ decimal (2 * length apiKeys)
                            ++ units " attempts. Last error: "
                            ++ interpolate (message e)))),
              {| currentKeyIndex := Num ((c + 1) mod length apiKeys);
                 trace := trace st ++ evs |})
        /\ length (sentKeys evs) = 2 * length apiKeys).
Proof.
  intros Hq Hc Hlt. fold size in Hlt |- *.
  destruct (first_stop q c (2 * size)) as [Hall | [k [Hk [Hpre Hnot]]]].
  - right. right.
    destruct (handler_exhausted_run apiKeys backend pool_nonempty pool_truthy
                q st c Hq Hc Hlt Hall) as [e [evs [Hb [Hh [S1 _]]]]].
    exists e, evs. split; [exact Hall|]. split; [exact Hb|].
    split; [exact Hh|]. now rewrite S1, length_map, length_seq.
  - destruct (backend k (keyOf apiKeys (c + k)) q) as [text|e] eqn:Hb.
    + left.
      destruct (handler_success_run q st c k text Hq Hc Hlt Hk Hpre Hb)
        as [evs [Hh [S1 _]]].
      exists k, text, evs. repeat split; try assumption.
      rewrite S1, length_map, length_seq. lia.
    + right. left.
      assert (Hf : classify (messageOr e) = FatalFailure).
      { destruct (classify (messageOr e)) eqn:Cl; [| |reflexivity];
          exfalso; apply Hnot; exists e;
          (split; [exact Hb | rewrite Cl; discriminate]). }
      destruct (handler_fatal_run apiKeys backend pool_nonempty pool_truthy
                  q st c k e Hq Hc Hlt Hk Hpre Hb Hf) as [evs [Hh [S1 _]]].
      exists k, e, evs. repeat split; try assumption.
      rewrite S1, length_map, length_seq. lia.
Qed.

(** X17: the time a request spends pausing is one second for every
    retried attempt whose message holds "503" or "Overloaded", whatever
    class the failure was given: a quota error that also says 503 pauses
    too.  Here [k] is the number of retried attempts: all 2 x poolSize of
    them, or those before the first attempt that is not retried. *)
Theorem handler_pause_total (q : jsstring) (st : state) (c k : nat) :
  truthy q = true ->
  currentKeyIndex st = Num c ->
  c < length apiKeys ->
  k <= 2 * length apiKeys ->
  (forall i, i < k -> retriedAt apiKeys backend q c i) ->
  k = 2 * length apiKeys \/ ~ retriedAt apiKeys backend q c k ->
  exists evs,
    trace (snd (handler apiKeys backend (Some q) st)) = trace st ++ evs
    /\ pauseTotal evs
       = list_sum (map (fun i => pauseOf (backend i (keyOf apiKeys (c + i)) q))
                       (seq 0 k)).
Proof.
  intros Hq Hc Hlt Hk H Hend. fold size in Hlt, Hk, Hend.
  rewrite (handler_run apiKeys backend pool_nonempty pool_truthy q st c
             Hq Hc Hlt).
  destruct (handler_retried_run q st c k Hq Hc Hlt Hk H)
    as [evs [le' [E [_ [_ P]]]]].
  fold size. rewrite E.
  destruct (Nat.eq_dec k (2 * size)) as [Ek|Ek].
  - replace (2 * size - k) with 0 by lia. cbn [retryLoop]. unfold ret.
    cbn [snd trace].
    exists (evs ++ [Log ERROR "CRITICAL_SERVER_ERROR"]).
    rewrite <- app_assoc. split; [reflexivity|].
    rewrite pauseTotal_app, P. cbn. lia.
  - destruct Hend as [Hend|Hnot]; [contradiction|].
    replace (2 * size - k) with (S (2 * size - S k)) by lia.
    destruct (backend k (keyOf apiKeys (c + k)) q) as [text|e] eqn:Hb.
    + rewrite (retryLoop_success q _ k
                 {| sessionKey := keyOf apiKeys (c + k) |} le' _ text Hb).
      cbn [snd trace]. eexists. rewrite <- app_assoc.
      split; [reflexivity|]. rewrite pauseTotal_app, P. cbn. lia.
    + assert (Hf : classify (messageOr e) = FatalFailure).
      { destruct (classify (messageOr e)) eqn:Cl; [| |reflexivity];
          exfalso; apply Hnot; exists e;
          (split; [exact Hb | rewrite Cl; discriminate]). }
      rewrite (retryLoop_fatal apiKeys backend q _ k
                 {| sessionKey := keyOf apiKeys (c + k) |} le' _ e Hb Hf).
      cbn [snd trace]. eexists. rewrite <- !app_assoc.
      split; [reflexivity|]. rewrite pauseTotal_app, P. cbn. lia.
Qed.

(** X18: a thrown value that has no message, or an empty one, is never
    retried: the request ends there with 500, and its [details] is that
    missing or empty message. *)
Theorem handler_bare_throw (q : jsstring) (st : state) (c k : nat)
  (e : Err) :
  truthy q = true ->
  currentKeyIndex st = Num c ->
  c < length apiKeys ->
  k < 2 * length apiKeys ->
  (forall i, i < k -> retriedAt apiKeys backend q c i) ->
  backend k (keyOf apiKeys (c + k)) q = Failure e ->
  message e = None \/ message e = Some [] ->
  exists evs,
    handler apiKeys backend (Some q) st
    = (inl (internalError (message e)),
       {| currentKeyIndex := Num ((c + k + 1) mod length apiKeys);
          trace := trace st ++ evs |})
    /\ length (sentKeys evs) = k + 1.
Proof.
  intros Hq Hc Hlt Hk H Hb Hm.
  assert (Hf : classify (messageOr e) = FatalFailure).
  { unfold messageOr. destruct Hm as [-> | ->]; reflexivity. }
  destruct (handler_fatal_run apiKeys backend pool_nonempty pool_truthy
              q st c k e Hq Hc Hlt Hk H Hb Hf) as [evs [Hh [S1 _]]].
  exists evs. split; [exact Hh|].
  rewrite S1, length_map, length_seq. lia.
Qed.

End HandlerOutcomes.

Lemma busyThenAnswers_retried :
  forall i, i < 1 -> retriedAt twoKeys busyThenAnswers (units "hi") 0 i.
Proof.
  intros i Hi. assert (i = 0) as -> by lia.
  eexists. split; [reflexivity | discriminate].
Qed.

Lemma busyThenAnswers_stops : ~ retriedAt twoKeys busyThenAnswers (units "hi") 0 1.
Proof. intros [e [H _]]. discriminate H. Qed.

Lemma handler_answer_ends_request_witness :
  exists evs,
    handler twoKeys busyThenAnswers (Some (units "hi")) initial
    = (inl {| status := 200;
              body := CodeBody (formatResponse (units "ok")) |},
       {| currentKeyIndex := Num 0; trace := [] ++ evs |})
    /\ sentKeys evs = [keyOne; keyTwo]
    /\ sessionKeys evs = sentKeys evs.
Proof.
  apply (handler_answer_ends_request twoKeys busyThenAnswers ltac:(simpl; lia)
           twoKeys_truthy (units "hi") initial 0 1 (units "ok")).
  - reflexivity.
  - reflexivity.
  - simpl; lia.
  - simpl; lia.
  - exact busyThenAnswers_retried.
  - reflexivity.
Defined.

Lemma handler_outcomes_witness :
  truthy (units "hi") = true
  /\ ((exists k text evs,
         k < 4
         /\ (forall i, i < k -> retriedAt twoKeys busyThenAnswers (units "hi") 0 i)
         /\ busyThenAnswers k (keyOf twoKeys (0 + k)) (units "hi") = Success text
         /\ handler twoKeys busyThenAnswers (Some (units "hi")) initial
            = (inl (okResponse text),
               {| currentKeyIndex := Num ((0 + k + 1) mod 2);
                  trace := [] ++ evs |})
         /\ length (sentKeys evs) = k + 1)
      \/ (exists k e evs,
            k < 4
            /\ (forall i, i < k ->
                  retriedAt twoKeys busyThenAnswers (units "hi") 0 i)
            /\ busyThenAnswers k (keyOf twoKeys (0 + k)) (units "hi")
               = Failure e
            /\ classify (messageOr e) = FatalFailure
            /\ handler twoKeys busyThenAnswers (Some (units "hi")) initial
               = (inl (internalError (message e)),
                  {| currentKeyIndex := Num ((0 + k + 1) mod 2);
                     trace := [] ++ evs |})
            /\ length (sentKeys evs) = k + 1)
      \/ (exists e evs,
            (forall i, i < 4 ->
               retriedAt twoKeys busyThenAnswers (units "hi") 0 i)
            /\ busyThenAnswers 3 (keyOf twoKeys (0 + 3)) (units "hi")
               = Failure e
            /\ handler twoKeys busyThenAnswers (Some (units "hi")) initial
               = (inl (internalError
                         (Some (units "Failed after " ++ decimal 4
                                ++ units " attempts. Last error: "
                                ++ interpolate (message e)))),
                  {| currentKeyIndex := Num ((0 + 1) mod 2);
                     trace := [] ++ evs |})
            /\ length (sentKeys evs) = 4)).
Proof.
  split; [reflexivity|].
  apply (handler_outcomes twoKeys busyThenAnswers ltac:(simpl; lia)
           twoKeys_truthy (units "hi") initial 0).
  - reflexivity.
  - reflexivity.
  - simpl; lia.
Defined.

Lemma handler_pause_total_witness :
  classify (units "429 quota; 503 Overloaded") = QuotaExceeded
  /\ exists evs,
       trace (snd (handler twoKeys busyThenAnswers (Some (units "hi")) initial))
       = [] ++ evs
       /\ pauseTotal evs = 1000.
Proof.
  split; [reflexivity|].
  apply (handler_pause_total twoKeys busyThenAnswers ltac:(simpl; lia)
           twoKeys_truthy (units "hi") initial 0 1).
  - reflexivity.
  - reflexivity.
  - simpl; lia.
  - simpl; lia.
  - exact busyThenAnswers_retried.
  - right. exact busyThenAnswers_stops.
Defined.

Lemma handler_bare_throw_witness :
  exists evs,
    handler twoKeys throwsBare (Some (units "hi")) initial
    = (inl (internalError None),
       {| currentKeyIndex := Num 1; trace := [] ++ evs |})
    /\ length (sentKeys evs) = 1.
Proof.
  apply (handler_bare_throw twoKeys throwsBare ltac:(simpl; lia)
           twoKeys_truthy (units "hi") initial 0 0 {| message := None |}).
  - reflexivity.
  - reflexivity.
  - simpl; lia.
  - simpl; lia.
  - intros i Hi. lia.
  - reflexivity.
  - left. reflexivity.
Defined.

(* ================================================================== *)
(** ** One request after the other *)
(* ================================================================== *)

Section Serving.

Variable apiKeys : list jsstring.
Variable backend : nat -> jsstring -> jsstring -> outcome.
Hypothesis pool_nonempty : 0 < length apiKeys.
Hypothesis pool_truthy : allTruthy apiKeys.

Let size := length apiKeys.

Lemma keyOf_mod (p : nat) : keyOf apiKeys (p mod size) = keyOf apiKeys p.
Proof. unfold keyOf. fold size. now rewrite Nat.Div0.mod_mod. Qed.

Lemma serve_run (queries : list jsstring) :
  Forall (fun q => truthy q = true) queries ->
  (forall k q, exists text, backend 0 k q = Success text) ->
  forall (st : state) (p : nat),
    currentKeyIndex st = Num (p mod size) ->
    exists evs,
      snd (serve apiKeys backend (map Some queries) st)
      = {| currentKeyIndex := Num ((p + length queries) mod size);
           trace := trace st ++ evs |}
      /\ sentKeys evs = map (keyOf apiKeys) (seq p (length queries))
      /\ Forall (fun r => exists resp, r = inl resp /\ status resp = 200)
                (fst (serve apiKeys backend (map Some queries) st)).
Proof.
  intros Hq Hb. induction Hq as [|q queries Hq1 Hq IH]; intros st p Hc.
  - exists []. cbn [map serve snd fst length seq].
    rewrite Nat.add_0_r, app_nil_r, <- Hc.
    split; [now destruct st|]. split; [reflexivity | constructor].
  - cbn [map serve].
    destruct (Hb (keyOf apiKeys (p mod size + 0)) q) as [text Ht].
    destruct (handler_success_run apiKeys backend pool_nonempty pool_truthy
                q st (p mod size) 0 text Hq1 Hc)
      as [evs [Hh [S1 _]]]; [ | | | exact Ht | ].
    + apply Nat.mod_upper_bound. unfold size. lia.
    + fold size. unfold size. lia.
    + intros i Hi. lia.
    + rewrite Hh. fold size.
      rewrite Nat.add_0_r, Nat.Div0.add_mod_idemp_l in *.
      destruct (IH {| currentKeyIndex := Num ((p + 1) mod size);
                      trace := trace st ++ evs |} (p + 1) eq_refl)
        as [evs' [E [S' F]]].
      destruct (serve apiKeys backend (map Some queries) _) as [rs st''].
      cbn [snd fst trace] in E, F |- *.
      exists (evs ++ evs'). rewrite E, <- app_assoc.
      replace (p + 1 + length queries) with (p + length (q :: queries))
        by (cbn [length]; lia).
      split; [reflexivity|]. split.
      * rewrite sentKeys_app, S1, S'. cbn [length seq map].
        rewrite keyOf_mod.
        now replace (p + 1) with (S p) by lia.
      * constructor; [|exact F]. eexists. split; reflexivity.
Qed.

(** X19: successive requests take successive keys: when every first
    attempt is answered, a run of requests sends one message each, on the
    keys round the pool from the cursor, every response is 200, and the
    cursor ends as many keys further. *)
Theorem serve_round_robin (queries : list jsstring) (st : state) (c : nat) :
  currentKeyIndex st = Num c ->
  c < length apiKeys ->
  Forall (fun q => truthy q = true) queries ->
  (forall k q, exists text, backend 0 k q = Success text) ->
  exists evs,
    snd (serve apiKeys backend (map Some queries) st)
    = {| currentKeyIndex := Num ((c + length queries) mod length apiKeys);
         trace := trace st ++ evs |}
    /\ sentKeys evs = map (keyOf apiKeys) (seq c (length queries))
    /\ Forall (fun r => exists resp, r = inl resp /\ status resp = 200)
              (fst (serve apiKeys backend (map Some queries) st)).
Proof.
  intros Hc Hlt Hq Hb. apply (serve_run queries Hq Hb st c).
  fold size in Hlt |- *. now rewrite Nat.mod_small.
Qed.

End Serving.

Lemma serve_round_robin_witness :
  exists evs,
    snd (serve twoKeys (alwaysAnswers (units "ok"))
           (map Some [units "a"; units "b"; units "c"]) initial)
    = {| currentKeyIndex := Num 1; trace := [] ++ evs |}
    /\ sentKeys evs = [keyOne; keyTwo; keyOne]
    /\ Forall (fun r => exists resp, r = inl resp /\ status resp = 200)
              (fst (serve twoKeys (alwaysAnswers (units "ok"))
                      (map Some [units "a"; units "b"; units "c"]) initial)).
Proof.
  apply (serve_round_robin twoKeys (alwaysAnswers (units "ok"))
           ltac:(simpl; lia) twoKeys_truthy
           [units "a"; units "b"; units "c"] initial 0).
  - reflexivity.
  - simpl; lia.
  - repeat constructor.
  - intros k q. eexists. reflexivity.
Defined.
